(** * The $percentile / $median accumulators of
      src/mongo/db/pipeline/accumulator_percentile.cpp

    A shallow embedding of the accumulator (method validation, parsing of the
    'p' field, ingestion with memory accounting, finalisation) together with
    the percentile algorithms it drives, and the properties of the design
    document that can be stated over it. *)

From Stdlib Require Import QArith Qcanon Qround.
From stdpp Require Import base numbers list strings sorting.
From stdpp Require Import gmap.

Local Open Scope Z_scope.
Set Warnings "-register-all".

(** ** Doubles

    A C++ [double] is represented by a canonical rational: arithmetic is
    exact, and NaN, the infinities and rounding are outside this model. *)
Abbreviation double := Qc (only parsing).

Definition double_of_Z (z : Z) : double := Qc_of_Z z.
Definition double_of_nat (n : nat) : double := Qc_of_Z (Z.of_nat n).

(** ** Values (mongo/db/exec/document_value/value.h)

    The variants of [Value] that reach the accumulator.  [numeric] holds of
    NumberInt, NumberLong, NumberDouble and NumberDecimal only.

    A NumberDouble and a NumberDecimal carry their value as a double, which
    is what [coerceToDouble] returns and all that this file reads of them:
    the digits of a NumberDecimal that its conversion to double rounds away
    are not kept.  A double is a rational here, so a NumberDouble or a
    NumberDecimal that is a NaN or an infinity is not among these values,
    and the conversion of a NumberLong beyond 2^53 in magnitude, which
    rounds, is written without the rounding. *)
Inductive Value : Type :=
  | VMissing
  | VNull
  | VBool (b : bool)
  | VInt (i : Z)
  | VLong (i : Z)
  | VDouble (d : double)
  | VDecimal (d : double)
  | VString (s : string)
  | VDate (millis : Z)
  | VArray (vs : list Value).

Definition numeric (v : Value) : bool :=
  match v with
  | VInt _ | VLong _ | VDouble _ | VDecimal _ => true
  | _ => false
  end.

Definition coerceToDouble (v : Value) : double :=
  match v with
  | VInt i | VLong i => double_of_Z i
  | VDouble d | VDecimal d => d
  | _ => 0%Qc
  end.

Definition isArray (v : Value) : bool :=
  match v with VArray _ => true | _ => false end.

Definition getArray (v : Value) : list Value :=
  match v with VArray vs => vs | _ => [] end.

Definition getArrayLength (v : Value) : nat := length (getArray v).

(** ** Errors (mongo/base/error_codes.h, mongo/util/assert_util.h)

    [uassert(n, ...)] with a literal number raises the error whose code is
    that number; the named codes are the ones this file uses. *)
Inductive ErrorCodes : Type :=
  | BadValue
  | ExceededMemoryLimit
  | Location (n : Z).

Global Instance ErrorCodes_eq_dec : EqDecision ErrorCodes.
Proof. solve_decision. Defined.

(** The pieces that [str::stream() << ...] and [fmt::format] put together,
    kept in the order in which they are streamed. *)
Inductive Fragment : Type :=
  | Text (s : string)
  | ShownInt (i : Z)
  | ShownDouble (d : double)
  | ShownValue (v : Value).

Definition Message := list Fragment.

Inductive Status : Type :=
  | OK
  | Error (code : ErrorCodes) (reason : Message).

Definition isOK (s : Status) : bool :=
  match s with OK => true | Error _ _ => false end.

Definition code (s : Status) : option ErrorCodes :=
  match s with OK => None | Error c _ => Some c end.

(** A computation that either returns or throws a [DBException]. *)
Inductive Throws (A : Type) : Type :=
  | Returns (a : A)
  | Thrown (code : ErrorCodes) (reason : Message).
Arguments Returns {A} a.
Arguments Thrown {A} code reason.

Definition bindT {A B} (m : Throws A) (k : A → Throws B) : Throws B :=
  match m with
  | Returns a => k a
  | Thrown c r => Thrown c r
  end.

Notation "x ←! m ; k" := (bindT m (λ x, k))
  (at level 20, m at level 100, k at level 200, only parsing).

Definition uassert (c : ErrorCodes) (reason : Message) (cond : bool) : Throws unit :=
  if cond then Returns () else Thrown c reason.

Definition uassertStatusOK (s : Status) : Throws unit :=
  match s with OK => Returns () | Error c r => Thrown c r end.

Definition thrownCode {A} (m : Throws A) : option ErrorCodes :=
  match m with Returns _ => None | Thrown c _ => Some c end.

(** ** Method names and their validation *)

Inductive PercentileMethodEnum : Type :=
  | kApproximateMethod
  | kDiscreteMethod
  | kContinuousMethod.

Global Instance PercentileMethodEnum_eq_dec : EqDecision PercentileMethodEnum.
Proof. solve_decision. Defined.

Definition kApproximate : string := "approximate".
Definition kDiscrete : string := "discrete".
Definition kContinuous : string := "continuous".

(** [AccumulatorPercentile::validatePercentileMethod].  [accuratePercentiles]
    is the value of [gFeatureFlagAccuratePercentiles.isEnabled(...)]. *)
Definition validatePercentileMethod (accuratePercentiles : bool) (method : string) : Status :=
  if accuratePercentiles then
    if bool_decide (method ≠ kApproximate) && bool_decide (method ≠ kDiscrete)
       && bool_decide (method ≠ kContinuous)
    then Error BadValue
           [Text "Currently only 'approximate', 'discrete', and 'continuous' can be used as percentile 'method'."]
    else OK
  else
    if bool_decide (method ≠ kApproximate)
    then Error BadValue
           [Text "Currently only 'approximate' can be used as percentile 'method'."]
    else OK.

Definition methodNameToEnum (method : string) : Throws PercentileMethodEnum :=
  if bool_decide (method = kApproximate) then Returns kApproximateMethod
  else if bool_decide (method = kDiscrete) then Returns kDiscreteMethod
  else if bool_decide (method = kContinuous) then Returns kContinuousMethod
  else Thrown (Location 7766600) [Text "Currently only approximate percentiles are supported"].

Definition percentileMethodEnumToString (method : PercentileMethodEnum) : string :=
  match method with
  | kApproximateMethod => kApproximate
  | kDiscreteMethod => kDiscrete
  | kContinuousMethod => kContinuous
  end.

(** ** The 'p' field *)

(** An [Expression], as far as this file looks at one: a constant, on which
    the [dynamic_cast] to [ExpressionConstant] succeeds, or some other
    expression. *)
Inductive Expression : Type :=
  | ExpressionConstant (v : Value)
  | ExpressionOther.

(** A [BSONElement]: its rendering by [toString(false, false)], the outcome
    of [Expression::parseOperand(expCtx, elem, vps)] on it, and the outcome
    of [optimize()] on the expression that [parseOperand] returned.  The two
    functions are code of mongo/db/pipeline/expression.cpp; either may
    throw. *)
Record BSONElement : Type := {
  elemToString : string;
  parseOperand : Throws Expression;
  optimize : Throws Expression;
}.

(** [Expression::parseOperand(expCtx, elem, vps)->optimize()]. *)
Definition parseOperandOptimized (elem : BSONElement) : Throws Expression :=
  _ ←! parseOperand elem;
  optimize elem.

Definition parseP_msg : string :=
  "The $percentile 'p' field must be an array of numbers from [0.0, 1.0], but found: ".

(** The loop of [parseP] over the elements of the array.  The two
    comparisons are those of the source, on the double that [coerceToDouble]
    returns; on the doubles of this file, which are rationals, a number for
    which neither holds is a number of [0.0, 1.0]. *)
Fixpoint parseP_loop (pVals : list Value) (ps : list double) : Throws (list double) :=
  match pVals with
  | [] => Returns ps
  | pVal :: rest =>
      if negb (numeric pVal) then
        Thrown (Location 7750302) [Text parseP_msg; ShownValue pVal]
      else
        let p := coerceToDouble pVal in
        if bool_decide (p < 0)%Qc || bool_decide (1 < p)%Qc then
          Thrown (Location 7750303) [Text parseP_msg; ShownDouble p]
        else parseP_loop rest (ps ++ [p])
  end.

Definition parseP (elem : BSONElement) : Throws (list double) :=
  expr ←! parseOperandOptimized elem;
  match expr with
  | ExpressionOther =>
      Thrown (Location 7750300)
        [Text "The $percentile 'p' field must be an array of constant values, but found value: ";
         Text (elemToString elem); Text "."]
  | ExpressionConstant pVals =>
      if negb (isArray pVals) || bool_decide (getArrayLength pVals = 0%nat) then
        Thrown (Location 7750301) [Text parseP_msg; ShownValue pVals]
      else parseP_loop (getArray pVals) []
  end.

(** [AccumulatorPercentileSpec] of accumulator_percentile_gen.h: the three
    fields of the object given to $percentile. *)
Record AccumulatorPercentileSpec : Type := {
  getInput : BSONElement;
  getP : BSONElement;
  getMethod : string;
}.

(** Modelled from the spec: [AccumulatorPercentileSpec::parse], generated from
    the IDL file, is not in the sources.  As the comment in
    [methodNameToEnum] says, it validates the method string with
    [validatePercentileMethod] and throws the status when it is not OK.  An
    [AccumulatorPercentileSpec] has the three fields: what the generated
    parser does with an object that lacks one, or has another, is not
    modelled. *)
Definition AccumulatorPercentileSpec_parse (accuratePercentiles : bool)
    (obj : AccumulatorPercentileSpec) : Throws AccumulatorPercentileSpec :=
  _ ←! uassertStatusOK (validatePercentileMethod accuratePercentiles (getMethod obj));
  Returns obj.

(** The element given to [parseArgs]: an object, or anything else (with its
    rendering). *)
Inductive SpecElement : Type :=
  | ElemObject (obj : AccumulatorPercentileSpec)
  | ElemOther (shown : string).

(** [AccumulatorPercentile::parseArgs]; the result holds the argument
    expression and what the factory closure captures. *)
Definition parseArgs (accuratePercentiles : bool) (elem : SpecElement)
    : Throws (Expression * list double * PercentileMethodEnum) :=
  match elem with
  | ElemOther shown =>
      Thrown (Location 7429703) [Text "specification must be an object; found "; Text shown]
  | ElemObject obj =>
      spec ←! AccumulatorPercentileSpec_parse accuratePercentiles obj;
      input ←! parseOperand (getInput spec);
      ps ←! parseP (getP spec);
      method ←! methodNameToEnum (getMethod spec);
      Returns (input, ps, method)
  end.

(** ** Percentile algorithms (mongo/db/pipeline/percentile_algo.h)

    The abstract interface [PercentileAlgorithm], with the [combine] and
    [serialize] of [PartialPercentile<Value>] and the factory function. *)
Class PercentileAlgorithm (A : Type) : Type := {
  createAlgorithm : A;
  incorporate : A → double → A;
  computePercentiles : A → list double → list double;
  memUsageBytes : A → Z;
  combine : A → Value → A;
  serialize : A → Value;
}.

(** Modelled from the spec: percentile_algo_accurate.h and the two exact
    algorithms are not in the sources.  Both retain every incorporated value
    in a growable buffer; a partial state is the array of the retained values
    and [combine] appends the values of the partial state to the buffer
    (concatenation semantics).  The spec gives no meaning to a partial state
    that is not an array: the buffer is left as it is then. *)
Module AccuratePercentile.

Definition incorporate (values : list double) (input : double) : list double :=
  values ++ [input].

Definition serialize (values : list double) : Value :=
  VArray (VDouble <$> values).

Definition combine (values : list double) (partial : Value) : list double :=
  match partial with
  | VArray vs => values ++ (coerceToDouble <$> vs)
  | _ => values
  end.

(** The buffer in ascending order. *)
Definition sorted (values : list double) : list double :=
  merge_sort Qcle values.

(** One result per fraction, in the order of the fractions; nothing when
    some fraction has no result, which is the case of the empty buffer. *)
Definition computePercentiles (computePercentile : list double → double → option double)
    (values : list double) (ps : list double) : list double :=
  default [] (mapM (computePercentile values) ps).

End AccuratePercentile.

(** Modelled from the spec: the discrete method, "percentile p over n sorted
    values returns the value at rank ceil(p * n) (1-indexed), clamped to
    [1, n]". *)
Module DiscretePercentile.

Definition computeTrueRank (n : nat) (p : double) : Z :=
  Z.max 1 (Z.min (Z.of_nat n) (Qceiling (p * double_of_nat n)%Qc)).

Definition computePercentile (values : list double) (p : double) : option double :=
  AccuratePercentile.sorted values
    !! Z.to_nat (computeTrueRank (length values) p - 1).

Definition computePercentiles : list double → list double → list double :=
  AccuratePercentile.computePercentiles computePercentile.

End DiscretePercentile.

(** Modelled from the spec: the continuous method, "the linear interpolation
    between adjacent order statistics at fractional rank p * (n - 1)
    (0-indexed)".  A rank that falls outside the buffer, which no fraction of
    [0, 1] gives for a buffer that holds a value, has no result. *)
Module ContinuousPercentile.

Definition computeTrueRank (n : nat) (p : double) : double :=
  (p * double_of_Z (Z.of_nat n - 1))%Qc.

Definition linearInterpolate (rank : double) (rank_floor : Z)
    (value_floor value_ceil : double) : double :=
  (value_floor + (rank - double_of_Z rank_floor) * (value_ceil - value_floor))%Qc.

Definition computePercentile (values : list double) (p : double) : option double :=
  let rank := computeTrueRank (length values) p in
  let rank_floor := Qfloor rank in
  let rank_ceil := Qceiling rank in
  if bool_decide (rank_floor < 0) then None
  else
    value_floor ← AccuratePercentile.sorted values !! Z.to_nat rank_floor;
    value_ceil ← AccuratePercentile.sorted values !! Z.to_nat rank_ceil;
    Some (linearInterpolate rank rank_floor value_floor value_ceil).

Definition computePercentiles : list double → list double → list double :=
  AccuratePercentile.computePercentiles computePercentile.

End ContinuousPercentile.

(** A sketch with no compression: every sample stays a centroid of weight one
    and a percentile is read off by nearest rank.  It is the instance at which
    the statements that hold for every sketch are exercised. *)
Module UncompressedSketch.

Record t : Type := Sketch { centroids : list double }.

Global Instance algorithm : PercentileAlgorithm t := {|
  createAlgorithm := Sketch [];
  incorporate s input := Sketch (AccuratePercentile.incorporate (centroids s) input);
  computePercentiles s ps := DiscretePercentile.computePercentiles (centroids s) ps;
  memUsageBytes s := 16 * Z.of_nat (length (centroids s));
  combine s partial := Sketch (AccuratePercentile.combine (centroids s) partial);
  serialize s := AccuratePercentile.serialize (centroids s);
|}.

End UncompressedSketch.

(** ** The memory tracker (mongo/db/pipeline/memory_usage_tracker.h)

    Modelled from the spec: the tracker's class is not in the sources.  It
    holds [currentBytes] and [maxBytes]; [set] replaces the current usage and
    the usage is within the limit as long as it does not exceed [maxBytes]. *)
Record MemoryUsageTracker : Type := {
  currentMemoryBytes : Z;
  maxAllowedMemoryUsageBytes : Z;
}.

Definition MemoryUsageTracker_set (t : MemoryUsageTracker) (total : Z) : MemoryUsageTracker :=
  {| currentMemoryBytes := total;
     maxAllowedMemoryUsageBytes := maxAllowedMemoryUsageBytes t |}.

Definition withinMemoryLimit (t : MemoryUsageTracker) : bool :=
  bool_decide (currentMemoryBytes t ≤ maxAllowedMemoryUsageBytes t).

(** ** The accumulator *)

(** What the accumulator takes from its build and its deployment:
    [sizeof *this] in the members of [AccumulatorPercentile], the footprint
    that the exact algorithms report for a buffer, and the server parameter
    [internalQueryMaxPercentileAccumulatorBytes].  Byte counts are integers
    without a bound: the sum [sizeof *this + memUsageBytes()] is not taken
    modulo the width of [size_t]. *)
Class Parameters : Type := {
  sizeofThis : Z;
  accurateMemUsageBytes : list double → Z;
  internalQueryMaxPercentileAccumulatorBytes : Z;
}.

Section Accumulator.

(** The approximate algorithm (a t-digest) is a parameter: any type with
    the operations of the interface. *)
Context {TDigest : Type} {tdigest : PercentileAlgorithm TDigest}.
Context {params : Parameters}.

(** What [std::unique_ptr<PercentileAlgorithm> _algo] can point to. *)
Inductive Algo : Type :=
  | TDigestAlgo (digest : TDigest)
  | DiscreteAlgo (values : list double)
  | ContinuousAlgo (values : list double).

(** Virtual dispatch on the object behind [_algo]. *)
Definition Algo_incorporate (a : Algo) (input : double) : Algo :=
  match a with
  | TDigestAlgo d => TDigestAlgo (incorporate d input)
  | DiscreteAlgo vs => DiscreteAlgo (AccuratePercentile.incorporate vs input)
  | ContinuousAlgo vs => ContinuousAlgo (AccuratePercentile.incorporate vs input)
  end.

Definition Algo_computePercentiles (a : Algo) (ps : list double) : list double :=
  match a with
  | TDigestAlgo d => computePercentiles d ps
  | DiscreteAlgo vs => DiscretePercentile.computePercentiles vs ps
  | ContinuousAlgo vs => ContinuousPercentile.computePercentiles vs ps
  end.

Definition Algo_memUsageBytes (a : Algo) : Z :=
  match a with
  | TDigestAlgo d => memUsageBytes d
  | DiscreteAlgo vs | ContinuousAlgo vs => accurateMemUsageBytes vs
  end.

Definition Algo_combine (a : Algo) (partial : Value) : Algo :=
  match a with
  | TDigestAlgo d => TDigestAlgo (combine d partial)
  | DiscreteAlgo vs => DiscreteAlgo (AccuratePercentile.combine vs partial)
  | ContinuousAlgo vs => ContinuousAlgo (AccuratePercentile.combine vs partial)
  end.

Definition Algo_serialize (a : Algo) : Value :=
  match a with
  | TDigestAlgo d => serialize d
  | DiscreteAlgo vs | ContinuousAlgo vs => AccuratePercentile.serialize vs
  end.

Definition createPercentileAlgorithm (method : PercentileMethodEnum) : Algo :=
  match method with
  | kApproximateMethod => TDigestAlgo createAlgorithm
  | kDiscreteMethod => DiscreteAlgo []
  | kContinuousMethod => ContinuousAlgo []
  end.

(** The members of [AccumulatorPercentile]; [AccumulatorMedian] adds none. *)
Record AccumulatorPercentile : Type := {
  _percentiles : list double;
  _algo : Algo;
  _method : PercentileMethodEnum;
  _memUsageTracker : MemoryUsageTracker;
}.

Definition exceededMemoryLimit_msg (t : MemoryUsageTracker) : Message :=
  [Text "$percentile used too much memory and cannot spill to disk. Used: ";
   ShownInt (currentMemoryBytes t);
   Text " bytes. Memory limit: ";
   ShownInt (maxAllowedMemoryUsageBytes t);
   Text " bytes"].

(** [_memUsageTracker.set(sizeof *this + _algo->memUsageBytes())]
    followed by the [uassert] on [withinMemoryLimit()]: the accumulator
    after the statement and whether the [uassert] threw. *)
Definition trackMemory (this : AccumulatorPercentile) (algo : Algo)
    : AccumulatorPercentile * Status :=
  let tracker :=
    MemoryUsageTracker_set (_memUsageTracker this) (sizeofThis + Algo_memUsageBytes algo) in
  ({| _percentiles := _percentiles this;
      _algo := algo;
      _method := _method this;
      _memUsageTracker := tracker |},
   if withinMemoryLimit tracker then OK
   else Error ExceededMemoryLimit (exceededMemoryLimit_msg tracker)).

(** [AccumulatorPercentile::processInternal].  The members are changed in
    place, so the result is the accumulator as the call leaves it, whether
    it returns ([OK]) or throws ([Error]). *)
Definition processInternal (this : AccumulatorPercentile) (input : Value) (merging : bool)
    : AccumulatorPercentile * Status :=
  if merging then
    trackMemory this (Algo_combine (_algo this) input)
  else if negb (numeric input) then
    (this, OK)
  else
    trackMemory this (Algo_incorporate (_algo this) (coerceToDouble input)).

(** [AccumulatorPercentile::formatFinalValue].  [nPercentiles] is the [int]
    that [getValue] makes of [_percentiles.size()]; it is a count here. *)
Definition formatFinalValue (nPercentiles : nat) (pctls : list double) : Value :=
  match pctls with
  | [] => VArray (replicate nPercentiles VNull)
  | _ => VArray (VDouble <$> pctls)
  end.

(** [AccumulatorPercentile::getValue]. *)
Definition getValue (this : AccumulatorPercentile) (toBeMerged : bool) : Value :=
  if toBeMerged then Algo_serialize (_algo this)
  else formatFinalValue (length (_percentiles this))
         (Algo_computePercentiles (_algo this) (_percentiles this)).

(** The constructor of [AccumulatorPercentile]. *)
Definition AccumulatorPercentile_new (ps : list double) (method : PercentileMethodEnum)
    (maxMemoryUsageBytes : option Z) : AccumulatorPercentile :=
  let algo := createPercentileAlgorithm method in
  {| _percentiles := ps;
     _algo := algo;
     _method := method;
     _memUsageTracker :=
       {| currentMemoryBytes := sizeofThis + Algo_memUsageBytes algo;
          maxAllowedMemoryUsageBytes :=
            default internalQueryMaxPercentileAccumulatorBytes maxMemoryUsageBytes |} |}.

(** [AccumulatorPercentile::create]. *)
Definition create (ps : list double) (method : PercentileMethodEnum) : AccumulatorPercentile :=
  AccumulatorPercentile_new ps method None.

(** [AccumulatorPercentile::reset]. *)
Definition reset (this : AccumulatorPercentile) : AccumulatorPercentile :=
  let algo := createPercentileAlgorithm (_method this) in
  {| _percentiles := _percentiles this;
     _algo := algo;
     _method := _method this;
     _memUsageTracker :=
       MemoryUsageTracker_set (_memUsageTracker this) (sizeofThis + Algo_memUsageBytes algo) |}.


(** The constructor of [AccumulatorMedian]: the fractions it is given are
    unused and the fraction list is {0.5}. *)
Definition AccumulatorMedian_new (unused : list double) (method : PercentileMethodEnum)
    (maxMemoryUsageBytes : option Z) : AccumulatorPercentile :=
  AccumulatorPercentile_new [Q2Qc (1 # 2)] method
    (Some (default internalQueryMaxPercentileAccumulatorBytes maxMemoryUsageBytes)).

Definition AccumulatorMedian_create (unused : list double) (method : PercentileMethodEnum)
    : AccumulatorPercentile :=
  AccumulatorMedian_new [] method None.

(** [AccumulatorMedian::formatFinalValue]; the [tassert] throws. *)
Definition AccumulatorMedian_formatFinalValue (nPercentiles : nat) (pctls : list double)
    : Throws Value :=
  match pctls with
  | [] => Returns VNull
  | front :: _ =>
      _ ←! uassert (Location 7436101)
             [Text "the percentile method for median must return a single result."]
             (bool_decide (length pctls = 1%nat));
      Returns (VDouble front)
  end.

(** [AccumulatorMedian::getValue]. *)
Definition AccumulatorMedian_getValue (this : AccumulatorPercentile) (toBeMerged : bool)
    : Throws Value :=
  if toBeMerged then Returns (getValue this toBeMerged)
  else AccumulatorMedian_formatFinalValue (length (_percentiles this))
         (Algo_computePercentiles (_algo this) (_percentiles this)).

(** A run of [processInternal] over a stream of inputs, stopping at the
    first call that throws. *)
Fixpoint processAll (this : AccumulatorPercentile) (inputs : list Value) (merging : bool)
    : AccumulatorPercentile * Status :=
  match inputs with
  | [] => (this, OK)
  | input :: rest =>
      match processInternal this input merging with
      | (this', OK) => processAll this' rest merging
      | (this', Error c r) => (this', Error c r)
      end
  end.

End Accumulator.

Arguments Algo : clear implicits.
Arguments AccumulatorPercentile : clear implicits.

(** ** Vocabulary of the properties *)

(** A fraction of a fraction list. *)
Definition validFraction (p : double) : Prop := (0 ≤ p)%Qc ∧ (p ≤ 1)%Qc.

(** What the accumulator relies on from any algorithm behind [_algo]: an
    algorithm that has seen nothing computes no percentile (the empty vector
    that [formatFinalValue] tests for), a computed vector has one entry per
    fraction, and an algorithm that holds a value computes a percentile for
    every fraction list. *)
Class PercentileAlgorithmLaws (A : Type) `{!PercentileAlgorithm A} : Prop := {
  computePercentiles_create (ps : list double) :
    computePercentiles createAlgorithm ps = [];
  computePercentiles_length (a : A) (ps : list double) :
    computePercentiles a ps = [] ∨ length (computePercentiles a ps) = length ps;
  computePercentiles_incorporate (a : A) (input : double) (ps : list double) :
    Forall validFraction ps → ps ≠ [] → computePercentiles (incorporate a input) ps ≠ [];
}.

(** The order statistics of a sample: the sample in ascending order. *)
Definition orderStatistics (values os : list double) : Prop :=
  Sorted Qcle os ∧ os ≡ₚ values.

Definition isMinimum (m : double) (values : list double) : Prop :=
  m ∈ values ∧ ∀ v, v ∈ values → (m ≤ v)%Qc.

Definition isMaximum (m : double) (values : list double) : Prop :=
  m ∈ values ∧ ∀ v, v ∈ values → (v ≤ m)%Qc.

(** [r] is the linear interpolation, at the fractional 0-indexed rank
    [rank], between the two adjacent entries of [os]: with [f] the fractional
    part of the rank, [(1 - f) * os[floor rank] + f * os[ceil rank]]. *)
Definition interpolatesAt (os : list double) (rank r : double) : Prop :=
  ∃ lo hi : double,
    (0 ≤ Qfloor rank) ∧
    os !! Z.to_nat (Qfloor rank) = Some lo ∧
    os !! Z.to_nat (Qceiling rank) = Some hi ∧
    let f := (rank - double_of_Z (Qfloor rank))%Qc in
    r = ((1 - f) * lo + f * hi)%Qc.

(** [r] is the entry of [os] at the 1-indexed rank [ceil (p * n)] clamped to
    [1, n], with [n] the length of [os]. *)
Definition nearestRank (os : list double) (p r : double) : Prop :=
  ∃ rank : Z,
    rank = Z.max 1 (Z.min (Z.of_nat (length os)) (Qceiling (p * double_of_nat (length os))%Qc)) ∧
    1 ≤ rank ≤ Z.of_nat (length os) ∧
    os !! Z.to_nat (rank - 1) = Some r.

(** The doubles that a stream of inputs contributes: the numeric ones. *)
Definition numericInputs (inputs : list Value) : list double :=
  coerceToDouble <$> filter (λ v, numeric v = true) inputs.

(** An element that the loop of [parseP] lets through: a number whose
    double is neither below 0 nor above 1, the two comparisons of the
    loop. *)
Definition fractionValue (v : Value) : Prop :=
  numeric v = true ∧ ¬ (coerceToDouble v < 0)%Qc ∧ ¬ (1 < coerceToDouble v)%Qc.

(** A 'p' element that is a well-formed fraction list: it parses and
    optimizes, without an exception, to a constant that is a non-empty array
    of such elements; [ps] are the doubles of the elements, in their
    order. *)
Definition wellFormedFractions (elem : BSONElement) (ps : list double) : Prop :=
  ∃ vs : list Value,
    parseOperandOptimized elem = Returns (ExpressionConstant (VArray vs)) ∧
    vs ≠ [] ∧
    Forall fractionValue vs ∧
    ps = coerceToDouble <$> vs.


(** The method names that the design document recognizes. *)
Definition recognizedMethod (method : string) : Prop :=
  method ∈ [kApproximate; kDiscrete; kContinuous].

(** The method names that [validatePercentileMethod] lets through for a
    state of the feature flag. *)
Definition acceptedMethod (accuratePercentiles : bool) (method : string) : Prop :=
  if accuratePercentiles then recognizedMethod method else method = kApproximate.

(** The doubles of the tests: [ratio a b] is [a / b]. *)
Definition ratio (a : Z) (b : positive) : double := Q2Qc (a # b).

(** The instance at which the statements are exercised: the uncompressed
    sketch for the approximate method, eight bytes per retained value, and a
    limit of 100 MB unless a call overrides it. *)
Definition testParameters : Parameters := {|
  sizeofThis := 128;
  accurateMemUsageBytes values := 8 * Z.of_nat (length values);
  internalQueryMaxPercentileAccumulatorBytes := 104857600;
|}.

(** The harness of jstests/aggregation/accumulators/percentiles_continuous.js
    for one group: the value that $percentile finalizes to over the [x] of
    the documents, in the order of the documents. *)
Definition testWithSingleGroup (docs : list Value) (ps : list double)
    (method : PercentileMethodEnum) : Value :=
  getValue
    (processAll (params:=testParameters)
       (create (TDigest:=UncompressedSketch.t) (params:=testParameters) ps method)
       docs false).1
    false.

(** A $percentile specification with the input "$x", a field path, the
    fractions [0.5], an array literal that optimizes to a constant, and a
    method. *)
Definition specWithMethod (method : string) : AccumulatorPercentileSpec := {|
  getInput := {| elemToString := "$x";
                 parseOperand := Returns ExpressionOther;
                 optimize := Returns ExpressionOther |};
  getP := {| elemToString := "[0.5]";
             parseOperand := Returns ExpressionOther;
             optimize := Returns (ExpressionConstant (VArray [VDouble (ratio 1 2)])) |};
  getMethod := method;
|}.


(** ** The other entry points of accumulator_percentile.cpp *)

(** [AccumulatorPercentile::parsePercentileAndMethod], on the object of the
    element.  The language leaves open which argument of [std::make_pair] is
    evaluated first; [pFirst] tells whether it is the call of [parseP]. *)
Definition parsePercentileAndMethod (accuratePercentiles pFirst : bool)
    (obj : AccumulatorPercentileSpec) : Throws (list double * PercentileMethodEnum) :=
  spec ←! AccumulatorPercentileSpec_parse accuratePercentiles obj;
  if pFirst then
    ps ←! parseP (getP spec);
    method ←! methodNameToEnum (getMethod spec);
    Returns (ps, method)
  else
    method ←! methodNameToEnum (getMethod spec);
    ps ←! parseP (getP spec);
    Returns (ps, method).

(** What [make_intrusive<ExpressionFromAccumulatorQuantile<...>>] is given. *)
Record ExpressionFromAccumulatorQuantile : Type := {
  quantilePs : list double;
  quantileInput : Expression;
  quantileMethod : PercentileMethodEnum;
}.

(** [AccumulatorPercentile::parseExpression]. *)
Definition parseExpression (accuratePercentiles : bool) (elem : SpecElement)
    : Throws ExpressionFromAccumulatorQuantile :=
  match elem with
  | ElemOther shown =>
      Thrown (Location 7436200) [Text "specification must be an object; found "; Text shown]
  | ElemObject obj =>
      spec ←! AccumulatorPercentileSpec_parse accuratePercentiles obj;
      input ←! parseOperand (getInput spec);
      ps ←! parseP (getP spec);
      method ←! methodNameToEnum (getMethod spec);
      Returns {| quantilePs := ps; quantileInput := input; quantileMethod := method |}
  end.

(** [AccumulatorMedianSpec] of accumulator_percentile_gen.h: the two fields
    of the object given to $median. *)
Record AccumulatorMedianSpec : Type := {
  medianInput : BSONElement;
  medianMethod : string;
}.

(** Modelled from the spec: [AccumulatorMedianSpec::parse], generated from the
    IDL file, is not in the sources; as for $percentile, it validates the
    method string with [validatePercentileMethod]. *)
Definition AccumulatorMedianSpec_parse (accuratePercentiles : bool)
    (obj : AccumulatorMedianSpec) : Throws AccumulatorMedianSpec :=
  _ ←! uassertStatusOK (validatePercentileMethod accuratePercentiles (medianMethod obj));
  Returns obj.

(** The element given to the parsers of $median. *)
Inductive MedianElement : Type :=
  | MedianObject (obj : AccumulatorMedianSpec)
  | MedianOther (shown : string).

(** [AccumulatorMedian::parseArgs]: the argument expression and the method
    that the factory closure captures. *)
Definition AccumulatorMedian_parseArgs (accuratePercentiles : bool) (elem : MedianElement)
    : Throws (Expression * PercentileMethodEnum) :=
  match elem with
  | MedianOther shown =>
      Thrown (Location 7436100) [Text "specification must be an object; found "; Text shown]
  | MedianObject obj =>
      spec ←! AccumulatorMedianSpec_parse accuratePercentiles obj;
      input ←! parseOperand (medianInput spec);
      method ←! methodNameToEnum (medianMethod spec);
      Returns (input, method)
  end.

(** [AccumulatorMedian::parsePercentileAndMethod]. *)
Definition AccumulatorMedian_parsePercentileAndMethod (accuratePercentiles : bool)
    (obj : AccumulatorMedianSpec) : Throws (list double * PercentileMethodEnum) :=
  spec ←! AccumulatorMedianSpec_parse accuratePercentiles obj;
  method ←! methodNameToEnum (medianMethod spec);
  Returns ([Q2Qc (1 # 2)], method).

(** [AccumulatorMedian::parseExpression]. *)
Definition AccumulatorMedian_parseExpression (accuratePercentiles : bool)
    (elem : MedianElement) : Throws ExpressionFromAccumulatorQuantile :=
  match elem with
  | MedianOther shown =>
      Thrown (Location 7436201) [Text "specification must be an object; found "; Text shown]
  | MedianObject obj =>
      spec ←! AccumulatorMedianSpec_parse accuratePercentiles obj;
      input ←! parseOperand (medianInput spec);
      let p := [Q2Qc (1 # 2)] in
      method ←! methodNameToEnum (medianMethod spec);
      Returns {| quantilePs := p; quantileInput := input; quantileMethod := method |}
  end.

(** ** Serialization of the accumulators *)

(** A [MutableDocument]: its fields in the order in which they were added;
    [addField] appends and does not look for a field of the same name. *)
Definition Document : Type := list (string * Value).

Definition addField (md : Document) (name : string) (v : Value) : Document :=
  md ++ [(name, v)].

(** The first field of a name, as [Document::operator[]] finds it. *)
Fixpoint getField (doc : Document) (name : string) : option Value :=
  match doc with
  | [] => None
  | (name', v) :: rest => if bool_decide (name' = name) then Some v else getField rest name
  end.

(** The field names of [AccumulatorPercentileSpec], as the specification
    object of the design document spells them. *)
Definition kInputFieldName : string := "input".
Definition kPFieldName : string := "p".
Definition kMethodFieldName : string := "method".

(** [Value::nullish]: null or missing (undefined has no variant here). *)
Definition nullish (v : Value) : bool :=
  match v with VNull | VMissing => true | _ => false end.

(** [AccumulatorPercentile::serializeHelper]; [argument] is the value of
    [argument->serialize(options)]. *)
Definition serializeHelper (argument : Value) (percentiles : list double)
    (method : PercentileMethodEnum) (md : Document) : Document :=
  let md := addField md kInputFieldName argument in
  let md := addField md kPFieldName (VArray (VDouble <$> percentiles)) in
  addField md kMethodFieldName (VString (percentileMethodEnumToString method)).

(** [AccumulatorMedian::serializeHelper]: no field for the fractions. *)
Definition AccumulatorMedian_serializeHelper (argument : Value) (percentiles : list double)
    (method : PercentileMethodEnum) (md : Document) : Document :=
  let md := addField md kInputFieldName argument in
  addField md kMethodFieldName (VString (percentileMethodEnumToString method)).

(** The initializer that [parseArgs] puts in the [AccumulationExpression] of
    $percentile and of $median. *)
Definition parseArgs_initializer : Expression := ExpressionConstant VNull.

Section Serialization.

Context {TDigest : Type}.

(** [AccumulatorPercentile::serialize]: the document [{opName: {...}}] as the
    name and the fields, or nothing when one of the two [invariant]s on the
    initializer fails, which ends the process. *)
Definition AccumulatorPercentile_serialize (this : AccumulatorPercentile TDigest)
    (opName : string) (initializer : Expression) (argument : Value)
    : option (string * Document) :=
  match initializer with
  | ExpressionConstant v =>
      if nullish v
      then Some (opName, serializeHelper argument (_percentiles this) (_method this) [])
      else None
  | ExpressionOther => None
  end.

(** [AccumulatorMedian::serialize]. *)
Definition AccumulatorMedian_serialize (this : AccumulatorPercentile TDigest)
    (opName : string) (initializer : Expression) (argument : Value)
    : option (string * Document) :=
  match initializer with
  | ExpressionConstant v =>
      if nullish v
      then Some (opName,
                 AccumulatorMedian_serializeHelper argument (_percentiles this)
                   (_method this) [])
      else None
  | ExpressionOther => None
  end.

End Serialization.

(** The element that the parser is given for a field of a serialized
    specification.  An array of numbers parses, and optimizes to a constant
    (the arrays of number literals of percentiles_continuous.js do); any
    other field is given an expression that is not a constant. *)
Definition elementOfField (doc : Document) (name : string) : BSONElement :=
  {| elemToString := name;
     parseOperand := Returns ExpressionOther;
     optimize :=
       Returns
         match getField doc name with
         | Some (VArray vs) =>
             if forallb numeric vs then ExpressionConstant (VArray vs) else ExpressionOther
         | _ => ExpressionOther
         end |}.

(** The specification object that a serialized $percentile is read back as;
    nothing when the method field is not a string. *)
Definition specOfDocument (doc : Document) : option AccumulatorPercentileSpec :=
  match getField doc kMethodFieldName with
  | Some (VString method) =>
      Some {| getInput := elementOfField doc kInputFieldName;
              getP := elementOfField doc kPFieldName;
              getMethod := method |}
  | _ => None
  end.

(** The specification object that a serialized $median is read back as. *)
Definition medianSpecOfDocument (doc : Document) : option AccumulatorMedianSpec :=
  match getField doc kMethodFieldName with
  | Some (VString method) =>
      Some {| medianInput := elementOfField doc kInputFieldName;
              medianMethod := method |}
  | _ => None
  end.

(** ** The state that the member functions keep *)

Section AccumulatorState.

Context {TDigest : Type} {tdigest : PercentileAlgorithm TDigest}.
Context {params : Parameters}.

(** The class of the object behind [_algo] is the one that
    [createPercentileAlgorithm] makes for [_method]. *)
Definition algoOfMethod (method : PercentileMethodEnum) (a : Algo TDigest) : Prop :=
  match method, a with
  | kApproximateMethod, TDigestAlgo _ => True
  | kDiscreteMethod, DiscreteAlgo _ => True
  | kContinuousMethod, ContinuousAlgo _ => True
  | _, _ => False
  end.

(** The tracker holds [sizeof *this] plus the footprint of [_algo]. *)
Definition trackerInSync (this : AccumulatorPercentile TDigest) : Prop :=
  currentMemoryBytes (_memUsageTracker this) = sizeofThis + Algo_memUsageBytes (_algo this).

(** A run of [processInternal] over inputs each of which comes with its own
    [merging] flag, stopping at the first call that throws. *)
Fixpoint processEach (this : AccumulatorPercentile TDigest) (calls : list (Value * bool))
    : AccumulatorPercentile TDigest * Status :=
  match calls with
  | [] => (this, OK)
  | (input, merging) :: rest =>
      match processInternal this input merging with
      | (this', OK) => processEach this' rest
      | (this', Error c r) => (this', Error c r)
      end
  end.

End AccumulatorState.

(** ** The count command of mongos (mongo/s/commands/query_cmd/cluster_count_cmd.h) *)

Module ClusterCountCmd.

(** [long long]: the integers of 64 bits in two's complement.  An operation
    whose result does not fit is written with its wrap-around. *)
Definition INT64_MIN : Z := - 2 ^ 63.
Definition INT64_MAX : Z := 2 ^ 63 - 1.

Definition representable (z : Z) : Prop := INT64_MIN ≤ z ≤ INT64_MAX.

Definition wrap64 (z : Z) : Z := (z + 2 ^ 63) mod 2 ^ 64 - 2 ^ 63.

(** [overflow::add] of mongo/platform/overflow_arithmetic.h: whether the sum
    overflows, and the sum as stored. *)
Definition overflow_add (lhs rhs : Z) : bool * Z :=
  (negb (bool_decide (representable (lhs + rhs))), wrap64 (lhs + rhs)).

(** The outcome of a part of [errmsgRun] that may [uassert]. *)
Inductive Checked (A : Type) : Type :=
  | Passed (a : A)
  | Overflow (reason : Message)
  | ShardFailed (status : Status) (context : Message).
Arguments Passed {A} a.
Arguments Overflow {A} reason.
Arguments ShardFailed {A} status context.

(** The limit and the skip of the request that [errmsgRun] sends to the
    shards: the skip is factored into the limit when both are given and the
    limit is not zero, and the skip is removed. *)
Definition limitAndSkipForShards (limit skip : option Z) : Checked (option Z * option Z) :=
  match limit, skip with
  | Some limit, Some skip =>
      if bool_decide (limit ≠ 0) then
        let '(overflows, sum) := overflow_add limit skip in
        if overflows then
          Overflow
            [Text "Overflow on the count command: The sum of the limit and skip fields must fit into a long integer. Limit: ";
             ShownInt limit; Text "   Skip: "; ShownInt skip]
        else Passed (Some sum, None)
      else Passed (Some limit, None)
  | _, _ => Passed (limit, None)
  end.

(** What the loop of [errmsgRun] reads of an
    [AsyncRequestsSender::Response]: the shard, the status of the response,
    and, of a response that arrived, the status in the command result and
    [data["n"].numberLong()]. *)
Record Response : Type := {
  shardId : string;
  swResponseStatus : Status;
  commandResultStatus : Status;
  shardCount : Z;
}.

(** The loop over the responses of the shards: the fields appended to the
    "shards" sub-object and the total, or the status of the first response
    that failed with the context that [withContext] is given. *)
Fixpoint sumShardCounts (responses : list Response) (shardSubTotal : list (string * Z))
    (total : Z) : Checked (list (string * Z) * Z) :=
  match responses with
  | [] => Passed (shardSubTotal, total)
  | response :: rest =>
      match swResponseStatus response with
      | OK =>
          match commandResultStatus response with
          | OK =>
              sumShardCounts rest
                (shardSubTotal ++ [(shardId response, shardCount response)])
                (wrap64 (total + shardCount response))
          | status => ShardFailed status [Text "failed on: "; Text (shardId response)]
          end
      | status => ShardFailed status [Text "failed on: "; Text (shardId response)]
      end
  end.

(** A response that arrived and whose command result is OK. *)
Definition healthy (response : Response) : Prop :=
  swResponseStatus response = OK ∧ commandResultStatus response = OK.

(** The status that the loop throws for a response that is not healthy: the
    status of the response, or else the status in the command result. *)
Definition failureStatus (response : Response) : Status :=
  match swResponseStatus response with
  | OK => commandResultStatus response
  | status => status
  end.

(** The sum of the counts of the shards. *)
Definition sumOf (counts : list Z) : Z := foldr Z.add 0 counts.

(** The command object and its elements (mongo/bson) are parameters:
    [getCmdField cmd name] is [cmd[name]]. *)
Class CommandObject : Type := {
  BSONObj : Type;
  BSONElt : Type;
  getCmdField : BSONObj → string → BSONElt;
  isNumber : BSONElt → bool;
  safeNumberLong : BSONElt → Z;
}.

Section Command.

Context {bson : CommandObject}.

(** [ClusterCountCmdBase::applySkipLimit]. *)
Definition applySkipLimit (num : Z) (cmd : BSONObj) : Z :=
  let s := getCmdField cmd "skip" in
  let l := getCmdField cmd "limit" in
  let num :=
    if isNumber s then
      let num := wrap64 (num - safeNumberLong s) in
      if bool_decide (num < 0) then 0 else num
    else num in
  if isNumber l then
    let limit := safeNumberLong l in
    let limit := if bool_decide (limit < 0) then wrap64 (- limit) else limit in
    if bool_decide (limit < num) && bool_decide (limit ≠ 0) then limit else num
  else num.

(** The end of [errmsgRun]: the shard sub-totals and the count "n". *)
Definition countFromResponses (responses : list Response) (cmd : BSONObj)
    : Checked (list (string * Z) * Z) :=
  match sumShardCounts responses [] 0 with
  | Passed (shards, total) => Passed (shards, applySkipLimit total cmd)
  | Overflow reason => Overflow reason
  | ShardFailed status context => ShardFailed status context
  end.

End Command.

(** A command object for the statements at concrete inputs: the numbers of
    its fields.  A field that is absent is not a number, and the number of a
    field is brought into the range of [long long]. *)
Definition TestCmd : Type := list (string * Z).

Fixpoint testField (cmd : TestCmd) (name : string) : option Z :=
  match cmd with
  | [] => None
  | (name', z) :: rest => if bool_decide (name' = name) then Some z else testField rest name
  end.

Definition testIsNumber (elt : option Z) : bool :=
  match elt with Some _ => true | None => false end.

Definition testSafeNumberLong (elt : option Z) : Z :=
  match elt with
  | Some z => Z.max INT64_MIN (Z.min INT64_MAX z)
  | None => 0
  end.

Definition testCommandObject : CommandObject := {|
  BSONObj := TestCmd;
  BSONElt := option Z;
  getCmdField := testField;
  isNumber := testIsNumber;
  safeNumberLong := testSafeNumberLong;
|}.

End ClusterCountCmd.

(** ** The options of mongos (mongo/s/mongos_options.cpp) *)

Module MongosOptions.

(** [moe::Environment] (mongo/util/options_parser) is a parameter:
    [count params key] is [params.count(key)], [getBool params key] is
    [params[key].as<bool>()], and [set] and [remove] give their status and
    the environment as they leave it.  So are the three functions of
    server_options_server_helpers.h; what [storeServerOptions] stores is
    not part of the state here. *)
Class Environment : Type := {
  Env : Type;
  count : Env → string → nat;
  getBool : Env → string → bool;
  set : Env → string → bool → Status * Env;
  remove : Env → string → Status * Env;
  validateServerOptions : Env → Status;
  canonicalizeServerOptions : Env → Status * Env;
  storeServerOptions : Env → Status;
}.

(** The members of [MongosGlobalParams] that this file writes. *)
Record MongosGlobalParams : Type := {
  scriptingEnabled : bool;
  upgradeBackCompat : bool;
  downgradeBackCompat : bool;
}.

(** What [handlePreValidationMongosOptions] does before it returns false. *)
Inductive PreValidationAction : Type :=
  | PrintMongosHelp
  | LogMongosVersionInfo
  | SetMinimumLoggedSeverityDebug5.

Section Options.

Context {environment : Environment}.

(** [handlePreValidationMongosOptions]: what it returns and what it did. *)
Definition handlePreValidationMongosOptions (params : Env)
    : bool * option PreValidationAction :=
  if bool_decide (count params "help" ≠ 0%nat) && getBool params "help" then
    (false, Some PrintMongosHelp)
  else if bool_decide (count params "version" ≠ 0%nat) && getBool params "version" then
    (false, Some LogMongosVersionInfo)
  else if bool_decide (count params "test" ≠ 0%nat) && getBool params "test" then
    (false, Some SetMinimumLoggedSeverityDebug5)
  else (true, None).

(** [validateMongosOptions]. *)
Definition validateMongosOptions (params : Env) : Status :=
  match validateServerOptions params with
  | OK => OK
  | ret => ret
  end.

(** [canonicalizeMongosOptions]: the status and the environment as the
    function leaves it. *)
Definition canonicalizeMongosOptions (params : Env) : Status * Env :=
  match canonicalizeServerOptions params with
  | (OK, params) =>
      if bool_decide (count params "noscripting" ≠ 0%nat) then
        match set params "security.javascriptEnabled" (negb (getBool params "noscripting")) with
        | (OK, params) =>
            match remove params "noscripting" with
            | (OK, params) => (OK, params)
            | (status, params) => (status, params)
            end
        | (status, params) => (status, params)
        end
      else (OK, params)
  | (ret, params) => (ret, params)
  end.

(** [storeMongosOptions]: the status and [mongosGlobalParams] as the function
    leaves it. *)
Definition storeMongosOptions (params : Env) (mongosGlobalParams : MongosGlobalParams)
    : Status * MongosGlobalParams :=
  match storeServerOptions params with
  | OK =>
      let mongosGlobalParams :=
        if bool_decide (count params "security.javascriptEnabled" ≠ 0%nat) then
          {| scriptingEnabled := getBool params "security.javascriptEnabled";
             upgradeBackCompat := upgradeBackCompat mongosGlobalParams;
             downgradeBackCompat := downgradeBackCompat mongosGlobalParams |}
        else mongosGlobalParams in
      if bool_decide (count params "sharding.configDB" = 0%nat) then
        (Error BadValue [Text "error: no args for --configdb"], mongosGlobalParams)
      else
        (OK,
         {| scriptingEnabled := scriptingEnabled mongosGlobalParams;
            upgradeBackCompat := bool_decide (count params "upgradeBackCompat" ≠ 0%nat);
            downgradeBackCompat := bool_decide (count params "downgradeBackCompat" ≠ 0%nat) |})
  | ret => (ret, mongosGlobalParams)
  end.

(** What the code relies on from [set] and [remove] when they return OK: the
    key is there with the value, or is gone, and no other key is touched. *)
Definition setSpec : Prop :=
  ∀ params key value params',
    set params key value = (OK, params') →
    count params' key ≠ 0%nat ∧ getBool params' key = value ∧
    ∀ other, other ≠ key →
      count params' other = count params other ∧ getBool params' other = getBool params other.

Definition removeSpec : Prop :=
  ∀ params key params',
    remove params key = (OK, params') →
    count params' key = 0%nat ∧
    ∀ other, other ≠ key →
      count params' other = count params other ∧ getBool params' other = getBool params other.

End Options.

(** An environment for the statements at concrete inputs: the map of the
    switches that are set, with [set] and [remove] that always succeed and
    server helpers that do nothing. *)
Definition testEnvironment : Environment := {|
  Env := gmap string bool;
  count params key := match params !! key with Some _ => 1%nat | None => 0%nat end;
  getBool params key := default false (params !! key);
  set params key value := (OK, <[key:=value]> params);
  remove params key := (OK, delete key params);
  validateServerOptions _ := OK;
  canonicalizeServerOptions params := (OK, params);
  storeServerOptions _ := OK;
|}.

End MongosOptions.

(** ** The error information of ShardInvalidatedForTargeting
       (mongo/s/shard_invalidated_for_targeting_exception.cpp) *)

Module ShardInvalidatedForTargetingInfo.

(** [NamespaceString] and the two functions of [NamespaceStringUtil] are
    parameters; [nssDeserialize] is [deserialize] with no tenant. *)
Class NamespaceStringUtil : Type := {
  NamespaceString : Type;
  nssSerialize : NamespaceString → string;
  nssDeserialize : string → NamespaceString;
}.

Definition kNss : string := "nss".

Section Info.

Context {util : NamespaceStringUtil}.

Record t : Type := Info { _nss : NamespaceString }.

(** [serialize]: the builder after the [append]. *)
Definition serialize (info : t) (bob : Document) : Document :=
  addField bob kNss (VString (nssSerialize (_nss info))).

(** [parseFromCommandError]; nothing when [obj["nss"].String()] throws, as it
    does for a field that is missing or is not a string. *)
Definition parseFromCommandError (obj : Document) : option t :=
  match getField obj "nss" with
  | Some (VString s) => Some (Info (nssDeserialize s))
  | _ => None
  end.

(** [parse]: the shared pointer to what [parseFromCommandError] returns. *)
Definition parse (obj : Document) : option t := parseFromCommandError obj.

End Info.

Arguments t : clear implicits.
Arguments t {util}.

(** Namespace strings for the statements at concrete inputs: a namespace
    string is kept as its serialization. *)
Definition testNamespaceStringUtil : NamespaceStringUtil := {|
  NamespaceString := string;
  nssSerialize nss := nss;
  nssDeserialize s := s;
|}.

End ShardInvalidatedForTargetingInfo.

(** * Properties *)

(** ** Method validation and the 'p' field *)

Lemma validatePercentileMethod_OK flag method :
  validatePercentileMethod flag method = OK ↔ acceptedMethod flag method.
Proof.
  unfold validatePercentileMethod, acceptedMethod, recognizedMethod.
  destruct flag; rewrite ?elem_of_cons, ?elem_of_nil;
    repeat case_bool_decide; simpl; intuition congruence.
Qed.

Lemma validatePercentileMethod_code flag method :
  validatePercentileMethod flag method = OK ∨
  ∃ reason, validatePercentileMethod flag method = Error BadValue reason.
Proof.
  unfold validatePercentileMethod.
  destruct flag; repeat case_bool_decide; simpl; eauto.
Qed.

Lemma acceptedMethod_recognized flag method :
  acceptedMethod flag method → recognizedMethod method.
Proof.
  destruct flag; simpl; [done|]. intros ->. by left.
Qed.

Lemma methodNameToEnum_recognized method :
  recognizedMethod method →
  ∃ m, methodNameToEnum method = Returns m ∧ percentileMethodEnumToString m = method.
Proof.
  unfold recognizedMethod, methodNameToEnum.
  rewrite !elem_of_cons, elem_of_nil.
  intros [->|[->|[->|[]]]]; repeat case_bool_decide; try done; eauto.
Qed.

(** The error 7766600 of [methodNameToEnum] is out of reach of a method
    string that [validatePercentileMethod] has let through. *)
Lemma methodNameToEnum_after_validation flag method :
  validatePercentileMethod flag method = OK →
  ∃ m, methodNameToEnum method = Returns m ∧ percentileMethodEnumToString m = method.
Proof.
  intros Hok. apply methodNameToEnum_recognized.
  eapply acceptedMethod_recognized. by apply validatePercentileMethod_OK.
Qed.

Lemma parseP_loop_spec vs acc :
  (Forall fractionValue vs ∧
   parseP_loop vs acc = Returns (acc ++ (coerceToDouble <$> vs))) ∨
  (¬ Forall fractionValue vs ∧
   ∃ c reason, parseP_loop vs acc = Thrown c reason ∧
               c ∈ [Location 7750302; Location 7750303]).
Proof.
  revert acc. induction vs as [|v vs IH]; intros acc; simpl.
  - left. split; [constructor|]. by rewrite app_nil_r.
  - destruct (numeric v) eqn:Hnum; simpl.
    2:{ right. split.
        - intros Hall. inversion Hall as [|?? [Hn _]]; congruence.
        - eexists _, _. split; [done|]. repeat constructor. }
    destruct (decide (coerceToDouble v < 0)%Qc) as [Hlt|Hge].
    { rewrite bool_decide_eq_true_2 by done. simpl. right. split.
      - intros Hall. by inversion Hall as [|?? [_ [H0 _]]].
      - eexists _, _. split; [done|]. repeat constructor. }
    rewrite (bool_decide_eq_false_2 _ Hge). simpl.
    destruct (decide (1 < coerceToDouble v)%Qc) as [Hgt|Hle].
    { rewrite bool_decide_eq_true_2 by done. right. split.
      - intros Hall. by inversion Hall as [|?? [_ [_ H1]]].
      - eexists _, _. split; [done|]. repeat constructor. }
    rewrite (bool_decide_eq_false_2 _ Hle).
    assert (fractionValue v) as Hv by done.
    destruct (IH (acc ++ [coerceToDouble v])) as [[Hall ->]|[Hnall Hthrow]].
    + left. split; [by constructor|]. by rewrite <-app_assoc.
    + right. split; [|done]. intros Hall. inversion Hall; subst. done.
Qed.

(** [parseP] returns the doubles of a well-formed fraction list; on any
    other element it throws: one of its four errors, or what the parsing or
    the optimization of the operand threw. *)
Lemma parseP_spec elem :
  (∃ ps, wellFormedFractions elem ps ∧ parseP elem = Returns ps) ∨
  ((¬ ∃ ps, wellFormedFractions elem ps) ∧
   ∃ c reason, parseP elem = Thrown c reason ∧
     (c ∈ [Location 7750300; Location 7750301; Location 7750302; Location 7750303] ∨
      parseOperandOptimized elem = Thrown c reason)).
Proof.
  unfold parseP, wellFormedFractions.
  destruct (parseOperandOptimized elem) as [[pVals|]|c reason] eqn:Hexpr; cbn [bindT].
  3:{ right. split; [intros (? & ? & ? & _); congruence|].
      eexists _, _. split; [done|]. by right. }
  2:{ right. split; [intros (? & ? & ? & _); congruence|].
      eexists _, _. split; [done|]. left. repeat constructor. }
  destruct pVals as [| | | | | | | | |vs];
    try (right; split; [intros (? & ? & ? & _); congruence|];
         eexists _, _; split; [done|]; left; repeat constructor).
  destruct vs as [|v vs].
  { right. split; [intros (? & ? & ? & ? & _); by simplify_eq|].
    eexists _, _. split; [done|]. left. repeat constructor. }
  change (negb (isArray (VArray (v :: vs))) ||
          bool_decide (getArrayLength (VArray (v :: vs)) = 0%nat)) with false.
  cbv iota. change (getArray (VArray (v :: vs))) with (v :: vs).
  destruct (parseP_loop_spec (v :: vs) []) as [[Hall ->]|[Hnall (c & r & -> & Hc)]].
  - left. eexists. split; [|done]. by exists (v :: vs).
  - right. split.
    + intros (ps & vs' & Heq & _ & Hall & _). by simplify_eq.
    + eexists _, _. split; [done|]. left.
      rewrite !elem_of_cons in Hc. rewrite !elem_of_cons. tauto.
Qed.

(** Which of the four errors of [parseP] an operand that parses and
    optimizes gets: 7750300 unless it is a constant, 7750301 unless the
    constant is a non-empty array, and for an array whose elements before
    [pVal] pass the loop, 7750302 when [pVal] is not a number and 7750303
    when its double is below 0 or above 1. *)
Lemma parseP_codes elem :
  (parseOperandOptimized elem = Returns ExpressionOther →
   thrownCode (parseP elem) = Some (Location 7750300)) ∧
  (∀ pVals, parseOperandOptimized elem = Returns (ExpressionConstant pVals) →
     isArray pVals = false ∨ getArray pVals = [] →
     thrownCode (parseP elem) = Some (Location 7750301)) ∧
  (∀ before pVal rest,
     parseOperandOptimized elem = Returns (ExpressionConstant (VArray (before ++ pVal :: rest))) →
     Forall fractionValue before →
     (numeric pVal = false → thrownCode (parseP elem) = Some (Location 7750302)) ∧
     (numeric pVal = true → (coerceToDouble pVal < 0)%Qc ∨ (1 < coerceToDouble pVal)%Qc →
      thrownCode (parseP elem) = Some (Location 7750303))).
Proof.
  unfold parseP. split; [|split].
  - by intros ->.
  - intros pVals -> Hbad. cbn [bindT].
    destruct pVals; try done. destruct Hbad as [?|Hnil]; [done|].
    cbn in Hnil. by subst.
  - intros before pVal rest -> Hbefore. cbn [bindT].
    assert (negb (isArray (VArray (before ++ pVal :: rest))) ||
            bool_decide (getArrayLength (VArray (before ++ pVal :: rest)) = 0%nat) = false)
      as ->.
    { cbn. apply bool_decide_eq_false_2. rewrite length_app. cbn. lia. }
    change (getArray (VArray (before ++ pVal :: rest))) with (before ++ pVal :: rest).
    assert (∀ acc, parseP_loop (before ++ pVal :: rest) acc
                   = parseP_loop (pVal :: rest) (acc ++ (coerceToDouble <$> before)))
      as ->.
    { induction Hbefore as [|v before (Hnum & Hge & Hle) _ IH]; intros acc.
      - by rewrite app_nil_r.
      - cbn [app parseP_loop]. rewrite Hnum. cbn [negb].
        rewrite (bool_decide_eq_false_2 _ Hge), (bool_decide_eq_false_2 _ Hle).
        cbn [orb]. rewrite IH, fmap_cons. by rewrite <-app_assoc. }
    cbn [parseP_loop]. split.
    + by intros ->.
    + intros -> Hout. cbn [negb].
      destruct Hout as [Hlt|Hgt].
      * by rewrite (bool_decide_eq_true_2 _ Hlt).
      * rewrite (bool_decide_eq_true_2 _ Hgt). by rewrite orb_true_r.
Qed.

(** C3, as stated, fails: with the feature flag off, the method "discrete" is
    rejected with the very error code that rejects a name outside the three
    methods, whether the flag is off or on; the two errors are not distinct. *)
Lemma gate_closed_error_not_distinct :
  ¬ (code (validatePercentileMethod false kDiscrete)
       ≠ code (validatePercentileMethod false "nearest") ∨
     code (validatePercentileMethod false kDiscrete)
       ≠ code (validatePercentileMethod true "nearest")).
Proof. intros [H|H]; by apply H. Qed.

(** C3, amended: with the feature flag off, every method other than
    "approximate" ("discrete" and "continuous" among them) is rejected with
    [BadValue], the code that also rejects a name outside the three methods
    when the flag is on, and the reason names the allowed set, which is
    'approximate' alone. *)
Theorem gate_closed_rejects_with_BadValue (method : string) :
  method ≠ kApproximate →
  validatePercentileMethod false method
    = Error BadValue [Text "Currently only 'approximate' can be used as percentile 'method'."] ∧
  thrownCode (parseArgs false (ElemObject (specWithMethod method))) = Some BadValue ∧
  ∀ unknown, ¬ recognizedMethod unknown →
    code (validatePercentileMethod true unknown)
      = code (validatePercentileMethod false method).
Proof.
  intros Hne.
  assert (validatePercentileMethod false method
    = Error BadValue [Text "Currently only 'approximate' can be used as percentile 'method'."])
    as Hclosed.
  { unfold validatePercentileMethod. by rewrite bool_decide_eq_true_2. }
  split; [done|]. split.
  - unfold parseArgs, AccumulatorPercentileSpec_parse.
    change (getMethod (specWithMethod method)) with method. by rewrite Hclosed.
  - intros unknown Hunknown. rewrite Hclosed.
    destruct (validatePercentileMethod_code true unknown) as [Hok|[reason ->]]; [|done].
    apply validatePercentileMethod_OK in Hok. done.
Qed.

Lemma gate_closed_rejects_with_BadValue_witness :
  kDiscrete ≠ kApproximate ∧
  validatePercentileMethod false kDiscrete
    = Error BadValue [Text "Currently only 'approximate' can be used as percentile 'method'."].
Proof.
  split; [done|].
  exact (proj1 (gate_closed_rejects_with_BadValue kDiscrete ltac:(done))).
Defined.

(** ** Construction *)

Section Construction.

Context {TDigest : Type} {tdigest : PercentileAlgorithm TDigest}.
Context {params : Parameters}.



End Construction.


(** ** Order statistics *)

Section OrderStatistics.

Import AccuratePercentile.

Lemma sorted_orderStatistics values : orderStatistics values (sorted values).
Proof.
  split; [apply (Sorted_merge_sort Qcle)|apply (merge_sort_Permutation Qcle)].
Qed.

Lemma orderStatistics_unique values os :
  orderStatistics values os → os = sorted values.
Proof.
  intros [Hsorted Hperm]. destruct (sorted_orderStatistics values) as [Hsorted' Hperm'].
  apply (Sorted_unique Qcle); [done..|]. by rewrite Hperm, Hperm'.
Qed.

Lemma sorted_Permutation_eq values values' :
  values ≡ₚ values' → sorted values = sorted values'.
Proof.
  intros Hperm. apply orderStatistics_unique.
  destruct (sorted_orderStatistics values) as [Hsorted Hperm'].
  split; [done|]. by rewrite Hperm', Hperm.
Qed.

Lemma length_sorted values : length (sorted values) = length values.
Proof. apply Permutation_length, sorted_orderStatistics. Qed.

Lemma orderStatistics_first values os m :
  orderStatistics values os → os !! 0%nat = Some m → isMinimum m values.
Proof.
  intros [Hsorted Hperm] Hm. destruct os as [|m' os]; simplify_eq/=.
  apply (Sorted_StronglySorted Qcle) in Hsorted.
  apply StronglySorted_cons in Hsorted as [Hall _].
  split.
  - rewrite <-Hperm. by left.
  - intros v. rewrite <-Hperm, elem_of_cons. intros [->|Hv]; [apply Qcle_refl|].
    by eapply Forall_forall in Hall.
Qed.

Lemma orderStatistics_last values os m :
  orderStatistics values os → os !! pred (length os) = Some m → isMaximum m values.
Proof.
  intros [Hsorted Hperm] Hm. rewrite <-last_lookup in Hm.
  apply last_Some in Hm as [os' ->].
  apply (Sorted_StronglySorted Qcle) in Hsorted.
  apply StronglySorted_app in Hsorted as (Hle & _ & _).
  split.
  - rewrite <-Hperm, elem_of_app, list_elem_of_singleton. by right.
  - intros v. rewrite <-Hperm, elem_of_app, list_elem_of_singleton.
    intros [Hv| ->]; [|apply Qcle_refl].
    apply Hle; [done|]. by apply list_elem_of_singleton.
Qed.

Lemma sorted_first_is_Some values :
  values ≠ [] → ∃ m, sorted values !! 0%nat = Some m ∧ isMinimum m values.
Proof.
  intros Hne. destruct (lookup_lt_is_Some_2 (sorted values) 0) as [m Hm].
  { rewrite length_sorted. destruct values; [done|simpl; lia]. }
  exists m. split; [done|]. eapply orderStatistics_first; [apply sorted_orderStatistics|done].
Qed.

Lemma sorted_last_is_Some values :
  values ≠ [] → ∃ m, sorted values !! pred (length values) = Some m ∧ isMaximum m values.
Proof.
  intros Hne. destruct (lookup_lt_is_Some_2 (sorted values) (pred (length values))) as [m Hm].
  { rewrite length_sorted. destruct values; [done|simpl; lia]. }
  exists m. split; [done|].
  eapply orderStatistics_last; [apply sorted_orderStatistics|]. by rewrite length_sorted.
Qed.

(** The vector of results: all of them, or none. *)
Lemma computePercentiles_Forall2 f values ps :
  (∀ p, p ∈ ps → is_Some (f values p)) →
  Forall2 (λ p r, f values p = Some r) ps (computePercentiles f values ps).
Proof.
  intros Hall. unfold computePercentiles.
  destruct (mapM_is_Some_2 (f values) ps) as [rs Hrs].
  { apply Forall_forall. intros p Hp. by apply Hall. }
  rewrite Hrs. simpl. by apply mapM_Some_1.
Qed.

Lemma computePercentiles_nil_or_length f values ps :
  computePercentiles f values ps = [] ∨
  length (computePercentiles f values ps) = length ps.
Proof.
  unfold computePercentiles. destruct (mapM (f values) ps) as [rs|] eqn:Hrs; simpl.
  - right. symmetry. by eapply length_mapM.
  - by left.
Qed.

Lemma computePercentiles_no_result f values ps :
  (∀ p, f values p = None) → computePercentiles f values ps = [].
Proof.
  intros Hnone. unfold computePercentiles. destruct ps as [|p ps]; [done|].
  rewrite (proj2 (mapM_None (f values) (p :: ps))); [done|]. by left.
Qed.

Lemma computePercentiles_singleton f values p r :
  f values p = Some r → computePercentiles f values [p] = [r].
Proof. intros Hr. unfold computePercentiles. simpl. by rewrite Hr. Qed.

Lemma computePercentiles_Permutation f values values' ps :
  (∀ p, f values p = f values' p) →
  computePercentiles f values ps = computePercentiles f values' ps.
Proof.
  intros Hf. unfold computePercentiles. by rewrite (mapM_ext _ _ _ Hf).
Qed.

End OrderStatistics.

(** ** Ranks *)

Lemma Qfloor_Qc_of_Z (z : Z) : Qfloor (Qc_of_Z z) = z.
Proof. apply Qfloor_Z. Qed.

Lemma Qceiling_Qc_of_Z (z : Z) : Qceiling (Qc_of_Z z) = z.
Proof. apply Qceiling_Z. Qed.

Lemma Qfloor_nonneg (x : Qc) : (0 ≤ x)%Qc → 0 ≤ Qfloor x.
Proof. intros Hx. change 0 with (Qfloor (Qc_of_Z 0)). by apply Qfloor_resp_le. Qed.

Lemma Qceiling_le_Z (x : Qc) (z : Z) : (x ≤ Qc_of_Z z)%Qc → Qceiling x ≤ z.
Proof.
  intros Hx. rewrite <-(Qceiling_Qc_of_Z z). by apply Qceiling_resp_le.
Qed.

Lemma Qfloor_le_Qceiling (x : Qc) : Qfloor x ≤ Qceiling x.
Proof. rewrite Zle_Qle. apply Qle_floor_ceiling. Qed.

(** ** The continuous method *)

Section Continuous.

Import ContinuousPercentile.

Lemma computeTrueRank_bounds n p :
  (0 < n)%nat → validFraction p →
  (0 ≤ computeTrueRank n p)%Qc ∧
  (computeTrueRank n p ≤ Qc_of_Z (Z.of_nat n - 1))%Qc.
Proof.
  intros Hn [Hp0 Hp1]. unfold computeTrueRank, double_of_Z.
  assert (0 ≤ Qc_of_Z (Z.of_nat n - 1))%Qc as Hm.
  { rewrite <-Z2Qc_inj_0, <-Z2Qc_inj_le. lia. }
  split.
  - by apply Qcmult_nonneg_nonneg.
  - rewrite <-(Qcmult_1_l (Qc_of_Z (Z.of_nat n - 1))) at 2.
    by apply Qcmult_le_mono_nonneg_r.
Qed.

Lemma linearInterpolate_weights rank rank_floor lo hi :
  linearInterpolate rank rank_floor lo hi
  = ((1 - (rank - double_of_Z rank_floor)) * lo
     + (rank - double_of_Z rank_floor) * hi)%Qc.
Proof. unfold linearInterpolate. ring. Qed.

Lemma linearInterpolate_integral rank_floor lo hi :
  linearInterpolate (double_of_Z rank_floor) rank_floor lo hi = lo.
Proof. unfold linearInterpolate. ring. Qed.

Lemma continuous_computePercentile_spec values p :
  values ≠ [] → validFraction p →
  ∃ r, computePercentile values p = Some r ∧
       interpolatesAt (AccuratePercentile.sorted values)
         (p * double_of_Z (Z.of_nat (length values) - 1))%Qc r.
Proof.
  intros Hne Hp.
  assert (0 < length values)%nat as Hn by (destruct values; [done|simpl; lia]).
  destruct (computeTrueRank_bounds _ _ Hn Hp) as [H0 H1].
  pose proof (Qfloor_nonneg _ H0) as Hfloor.
  pose proof (Qceiling_le_Z _ _ H1) as Hceil.
  pose proof (Qfloor_le_Qceiling (computeTrueRank (length values) p)) as Hfc.
  destruct (lookup_lt_is_Some_2 (AccuratePercentile.sorted values)
              (Z.to_nat (Qfloor (computeTrueRank (length values) p)))) as [lo Hlo].
  { rewrite length_sorted. lia. }
  destruct (lookup_lt_is_Some_2 (AccuratePercentile.sorted values)
              (Z.to_nat (Qceiling (computeTrueRank (length values) p)))) as [hi Hhi].
  { rewrite length_sorted. lia. }
  eexists. split.
  - unfold computePercentile. rewrite bool_decide_eq_false_2 by lia.
    rewrite Hlo, Hhi. done.
  - exists lo, hi. repeat split; try done. apply linearInterpolate_weights.
Qed.

Lemma continuous_computePercentile_empty p : computePercentile [] p = None.
Proof.
  unfold computePercentile. case_bool_decide; [done|].
  change (AccuratePercentile.sorted []) with (@nil Qc). done.
Qed.

Lemma continuous_computePercentile_Permutation values values' p :
  values ≡ₚ values' → computePercentile values p = computePercentile values' p.
Proof.
  intros Hperm. unfold computePercentile.
  by rewrite (sorted_Permutation_eq _ _ Hperm), (Permutation_length Hperm).
Qed.

Lemma continuous_computePercentile_0 values :
  computePercentile values 0%Qc = AccuratePercentile.sorted values !! 0%nat.
Proof.
  unfold computePercentile, computeTrueRank. rewrite Qcmult_0_l.
  change (Qfloor 0%Qc) with 0. change (Qceiling 0%Qc) with 0.
  rewrite bool_decide_eq_false_2 by lia. change (Z.to_nat 0) with 0%nat.
  destruct (AccuratePercentile.sorted values !! 0%nat) as [m|]; simpl; [|done].
  f_equal. apply (linearInterpolate_integral 0).
Qed.

Lemma continuous_computePercentile_1 values :
  values ≠ [] →
  computePercentile values 1%Qc
  = AccuratePercentile.sorted values !! pred (length values).
Proof.
  intros Hne. unfold computePercentile, computeTrueRank. rewrite Qcmult_1_l.
  unfold double_of_Z. rewrite Qfloor_Qc_of_Z, Qceiling_Qc_of_Z.
  assert (0 < length values)%nat as Hn by (destruct values; [done|simpl; lia]).
  rewrite bool_decide_eq_false_2 by lia.
  replace (Z.to_nat (Z.of_nat (length values) - 1)) with (pred (length values)) by lia.
  destruct (AccuratePercentile.sorted values !! pred (length values)) as [m|];
    simpl; [|done].
  f_equal. apply linearInterpolate_integral.
Qed.

Lemma continuous_computePercentiles_valid values ps :
  values ≠ [] → Forall validFraction ps →
  Forall2 (λ p r, computePercentile values p = Some r) ps (computePercentiles values ps).
Proof.
  intros Hne Hps. apply computePercentiles_Forall2. intros p Hp.
  destruct (continuous_computePercentile_spec values p) as (r & -> & _); [done| |done].
  by eapply Forall_forall in Hps.
Qed.

Lemma continuous_interpolatesAt values ps :
  values ≠ [] → Forall validFraction ps →
  Forall2 (λ p r, interpolatesAt (AccuratePercentile.sorted values)
                    (p * double_of_Z (Z.of_nat (length values) - 1))%Qc r)
    ps (computePercentiles values ps).
Proof.
  intros Hne Hps.
  pose proof (continuous_computePercentiles_valid values ps Hne Hps) as Hall.
  induction Hall as [|p r ps rs Hr _ IH]; [constructor|].
  apply Forall_cons in Hps as [Hp Hps]. constructor; [|by apply IH].
  destruct (continuous_computePercentile_spec values p Hne Hp) as (r' & Hr' & Hinterp).
  by simplify_eq.
Qed.

Lemma continuous_minimum values :
  values ≠ [] → ∃ m, computePercentiles values [0%Qc] = [m] ∧ isMinimum m values.
Proof.
  intros Hne. destruct (sorted_first_is_Some values Hne) as (m & Hm & Hmin).
  exists m. split; [|done].
  apply computePercentiles_singleton. by rewrite continuous_computePercentile_0.
Qed.

Lemma continuous_maximum values :
  values ≠ [] → ∃ m, computePercentiles values [1%Qc] = [m] ∧ isMaximum m values.
Proof.
  intros Hne. destruct (sorted_last_is_Some values Hne) as (m & Hm & Hmax).
  exists m. split; [|done].
  apply computePercentiles_singleton. by rewrite continuous_computePercentile_1.
Qed.

End Continuous.

(** ** The discrete method *)

Section Discrete.

Import DiscretePercentile.

Lemma discrete_computePercentile_spec values p :
  values ≠ [] →
  ∃ r, computePercentile values p = Some r ∧
       nearestRank (AccuratePercentile.sorted values) p r.
Proof.
  intros Hne.
  assert (0 < length values)%nat as Hn by (destruct values; [done|simpl; lia]).
  destruct (lookup_lt_is_Some_2 (AccuratePercentile.sorted values)
              (Z.to_nat (computeTrueRank (length values) p - 1))) as [r Hr].
  { rewrite length_sorted. unfold computeTrueRank. lia. }
  exists r. split; [done|].
  exists (computeTrueRank (length values) p). rewrite length_sorted.
  split; [done|]. split; [unfold computeTrueRank; lia|done].
Qed.

Lemma discrete_computePercentile_empty p : computePercentile [] p = None.
Proof. done. Qed.

Lemma discrete_computePercentile_Permutation values values' p :
  values ≡ₚ values' → computePercentile values p = computePercentile values' p.
Proof.
  intros Hperm. unfold computePercentile.
  by rewrite (sorted_Permutation_eq _ _ Hperm), (Permutation_length Hperm).
Qed.

Lemma discrete_computeTrueRank_0 n : (0 < n)%nat → computeTrueRank n 0%Qc = 1.
Proof.
  intros Hn. unfold computeTrueRank. rewrite Qcmult_0_l.
  change (Qceiling 0%Qc) with 0. lia.
Qed.

Lemma discrete_computeTrueRank_1 n : (0 < n)%nat → computeTrueRank n 1%Qc = Z.of_nat n.
Proof.
  intros Hn. unfold computeTrueRank, double_of_nat.
  rewrite Qcmult_1_l, Qceiling_Qc_of_Z. lia.
Qed.

Lemma discrete_computePercentiles_all values ps :
  values ≠ [] →
  Forall2 (λ p r, computePercentile values p = Some r) ps (computePercentiles values ps).
Proof.
  intros Hne. apply computePercentiles_Forall2. intros p _.
  by destruct (discrete_computePercentile_spec values p) as (r & -> & _).
Qed.

Lemma discrete_minimum values :
  values ≠ [] → ∃ m, computePercentiles values [0%Qc] = [m] ∧ isMinimum m values.
Proof.
  intros Hne. destruct (sorted_first_is_Some values Hne) as (m & Hm & Hmin).
  assert (0 < length values)%nat as Hn by (destruct values; [done|simpl; lia]).
  exists m. split; [|done].
  apply computePercentiles_singleton. unfold computePercentile.
  by rewrite discrete_computeTrueRank_0.
Qed.

Lemma discrete_maximum values :
  values ≠ [] → ∃ m, computePercentiles values [1%Qc] = [m] ∧ isMaximum m values.
Proof.
  intros Hne. destruct (sorted_last_is_Some values Hne) as (m & Hm & Hmax).
  assert (0 < length values)%nat as Hn by (destruct values; [done|simpl; lia]).
  exists m. split; [|done].
  apply computePercentiles_singleton. unfold computePercentile.
  rewrite discrete_computeTrueRank_1 by done.
  by replace (Z.to_nat (Z.of_nat (length values) - 1)) with (pred (length values)) by lia.
Qed.

End Discrete.

(** ** The uncompressed sketch satisfies the laws of the interface *)

Global Instance UncompressedSketch_laws : PercentileAlgorithmLaws UncompressedSketch.t.
Proof.
  split.
  - intros ps. change (DiscretePercentile.computePercentiles [] ps = []).
    apply (computePercentiles_no_result DiscretePercentile.computePercentile).
    apply discrete_computePercentile_empty.
  - intros [values] ps.
    apply (computePercentiles_nil_or_length DiscretePercentile.computePercentile).
  - intros [values] input ps _ Hps Hnil.
    change (DiscretePercentile.computePercentiles (values ++ [input]) ps = []) in Hnil.
    assert (values ++ [input] ≠ []) as Hne by (by destruct values).
    pose proof (discrete_computePercentiles_all (values ++ [input]) ps Hne) as Hall.
    rewrite Hnil in Hall. by apply Forall2_nil_inv_r in Hall.
Qed.

(** ** The accumulator *)

Section AccumulatorProperties.

Context {TDigest : Type} {tdigest : PercentileAlgorithm TDigest}.
Context {laws : PercentileAlgorithmLaws TDigest}.
Context {params : Parameters}.

Implicit Types (this : AccumulatorPercentile TDigest) (a : Algo TDigest).
Implicit Types (ps : list double).

(** *** The laws, for whatever [_algo] points to *)

Lemma Algo_computePercentiles_create method ps :
  Algo_computePercentiles (createPercentileAlgorithm method) ps = [].
Proof.
  destruct method; simpl.
  - apply computePercentiles_create.
  - apply (computePercentiles_no_result DiscretePercentile.computePercentile),
      discrete_computePercentile_empty.
  - apply (computePercentiles_no_result ContinuousPercentile.computePercentile),
      continuous_computePercentile_empty.
Qed.

Lemma Algo_computePercentiles_nil_or_length a ps :
  Algo_computePercentiles a ps = [] ∨
  length (Algo_computePercentiles a ps) = length ps.
Proof.
  destruct a; simpl.
  - apply computePercentiles_length.
  - apply (computePercentiles_nil_or_length DiscretePercentile.computePercentile).
  - apply (computePercentiles_nil_or_length ContinuousPercentile.computePercentile).
Qed.

Lemma Algo_computePercentiles_incorporate a input ps :
  Forall validFraction ps →
  length (Algo_computePercentiles (Algo_incorporate a input) ps) = length ps.
Proof.
  intros Hps. destruct ps as [|p ps].
  { by destruct (Algo_computePercentiles_nil_or_length (Algo_incorporate a input) [])
      as [-> | ->]. }
  destruct a as [d|values|values]; cbn [Algo_computePercentiles Algo_incorporate].
  - destruct (computePercentiles_length (incorporate d input) (p :: ps)) as [Hnil|Hlen];
      [|done].
    by apply computePercentiles_incorporate in Hnil.
  - symmetry. eapply Forall2_length, discrete_computePercentiles_all.
    unfold AccuratePercentile.incorporate. by destruct values.
  - symmetry. eapply Forall2_length, continuous_computePercentiles_valid; [|done].
    unfold AccuratePercentile.incorporate. by destruct values.
Qed.

(** *** One call of [processInternal] *)

Lemma processInternal_non_numeric this input :
  numeric input = false → processInternal this input false = (this, OK).
Proof. intros Hnum. unfold processInternal. by rewrite Hnum. Qed.

Lemma processInternal_numeric this input :
  numeric input = true →
  processInternal this input false
  = trackMemory this (Algo_incorporate (_algo this) (coerceToDouble input)).
Proof. intros Hnum. unfold processInternal. by rewrite Hnum. Qed.

Lemma trackMemory_members this a :
  _algo (trackMemory this a).1 = a ∧
  _percentiles (trackMemory this a).1 = _percentiles this ∧
  _method (trackMemory this a).1 = _method this ∧
  currentMemoryBytes (_memUsageTracker (trackMemory this a).1)
    = sizeofThis + Algo_memUsageBytes a ∧
  maxAllowedMemoryUsageBytes (_memUsageTracker (trackMemory this a).1)
    = maxAllowedMemoryUsageBytes (_memUsageTracker this).
Proof. done. Qed.

Lemma trackMemory_status this a :
  let tracker := _memUsageTracker (trackMemory this a).1 in
  (currentMemoryBytes tracker ≤ maxAllowedMemoryUsageBytes tracker ∧
   (trackMemory this a).2 = OK) ∨
  (maxAllowedMemoryUsageBytes tracker < currentMemoryBytes tracker ∧
   (trackMemory this a).2
   = Error ExceededMemoryLimit
       [Text "$percentile used too much memory and cannot spill to disk. Used: ";
        ShownInt (currentMemoryBytes tracker);
        Text " bytes. Memory limit: ";
        ShownInt (maxAllowedMemoryUsageBytes tracker);
        Text " bytes"]).
Proof.
  simpl. unfold withinMemoryLimit. simpl. case_bool_decide; [left|right]; split; (done || lia).
Qed.

(** *** A run of calls *)

Lemma processAll_cons this input inputs merging :
  processAll this (input :: inputs) merging
  = match processInternal this input merging with
    | (this', OK) => processAll this' inputs merging
    | (this', Error c r) => (this', Error c r)
    end.
Proof. done. Qed.

Lemma processAll_app this inputs inputs' merging :
  processAll this (inputs ++ inputs') merging
  = match processAll this inputs merging with
    | (this', OK) => processAll this' inputs' merging
    | (this', Error c r) => (this', Error c r)
    end.
Proof.
  revert this. induction inputs as [|input inputs IH]; intros this; [done|].
  rewrite <-app_comm_cons, !processAll_cons.
  destruct (processInternal this input merging) as [this' [|c r]]; [apply IH|done].
Qed.

Lemma processAll_non_numeric this inputs :
  Forall (λ v, numeric v = false) inputs → processAll this inputs false = (this, OK).
Proof.
  induction 1 as [|input inputs Hnum _ IH]; [done|].
  by rewrite processAll_cons, processInternal_non_numeric.
Qed.

Lemma processInternal_members this input merging :
  _percentiles (processInternal this input merging).1 = _percentiles this ∧
  _method (processInternal this input merging).1 = _method this ∧
  maxAllowedMemoryUsageBytes (_memUsageTracker (processInternal this input merging).1)
    = maxAllowedMemoryUsageBytes (_memUsageTracker this).
Proof. unfold processInternal. destruct merging; [done|]. by destruct (numeric input). Qed.

Lemma processAll_members this inputs merging :
  _percentiles (processAll this inputs merging).1 = _percentiles this ∧
  _method (processAll this inputs merging).1 = _method this ∧
  maxAllowedMemoryUsageBytes (_memUsageTracker (processAll this inputs merging).1)
    = maxAllowedMemoryUsageBytes (_memUsageTracker this).
Proof.
  revert this. induction inputs as [|input inputs IH]; intros this; [done|].
  rewrite processAll_cons.
  pose proof (processInternal_members this input merging) as (Hps & Hm & Hmax).
  destruct (processInternal this input merging) as [this' [|c r]]; simpl in *; [|done].
  destruct (IH this') as (-> & -> & ->). done.
Qed.

Lemma processAll_ingest_OK this inputs this' :
  processAll this inputs false = (this', OK) →
  _algo this' = foldl Algo_incorporate (_algo this) (numericInputs inputs).
Proof.
  revert this. induction inputs as [|input inputs IH]; intros this.
  { by intros [= <-]. }
  rewrite processAll_cons.
  unfold numericInputs. rewrite filter_cons. fold (numericInputs inputs).
  destruct (numeric input) eqn:Hnum.
  - rewrite processInternal_numeric by done. rewrite decide_True by done.
    pose proof (proj1 (trackMemory_members this
      (Algo_incorporate (_algo this) (coerceToDouble input)))) as Halgo.
    destruct (trackMemory this _) as [this1 [|c r]]; [|done]. simpl in Halgo.
    intros Hrest. rewrite (IH _ Hrest), Halgo. by rewrite fmap_cons.
  - rewrite processInternal_non_numeric by done. rewrite decide_False by congruence.
    apply IH.
Qed.

Lemma processAll_merge_OK this partials this' :
  processAll this partials true = (this', OK) →
  _algo this' = foldl Algo_combine (_algo this) partials.
Proof.
  revert this. induction partials as [|partial partials IH]; intros this.
  { by intros [= <-]. }
  rewrite processAll_cons. change (processInternal this partial true)
    with (trackMemory this (Algo_combine (_algo this) partial)).
  pose proof (proj1 (trackMemory_members this (Algo_combine (_algo this) partial)))
    as Halgo.
  destruct (trackMemory this _) as [this1 [|c r]]; [|done]. simpl in Halgo.
  intros Hrest. by rewrite (IH _ Hrest), Halgo.
Qed.

(** Once a numeric value has been given to a run, the algorithm that the
    run leaves behind has incorporated a value, however the run ended. *)
Lemma processAll_seen this inputs :
  Exists (λ v, numeric v = true) inputs →
  ∃ a input, _algo (processAll this inputs false).1 = Algo_incorporate a input.
Proof.
  revert this. induction inputs as [|input inputs IH]; intros this Hex.
  { by apply Exists_nil in Hex. }
  rewrite processAll_cons.
  destruct (numeric input) eqn:Hnum.
  - rewrite processInternal_numeric by done.
    pose proof (proj1 (trackMemory_members this
      (Algo_incorporate (_algo this) (coerceToDouble input)))) as Halgo.
    destruct (trackMemory this _) as [this1 [|c r]]; simpl in Halgo.
    + destruct (Exists_dec (λ v, numeric v = true) inputs) as [Hex'|Hnex].
      * by apply IH.
      * apply not_Exists_Forall in Hnex; [|intros v; apply _].
        rewrite processAll_non_numeric; [by eexists _, _|].
        eapply Forall_impl; [done|]. simpl. intros v Hv. by destruct (numeric v).
    + by eexists _, _.
  - rewrite processInternal_non_numeric by done.
    apply IH. apply Exists_cons in Hex as [Hin|Hex]; [congruence|done].
Qed.

(** *** Finalisation *)

Lemma validFraction_half : validFraction (ratio 1 2).
Proof. split; by vm_compute. Qed.

Lemma getValue_length this :
  ∃ vs, getValue this false = VArray vs ∧ length vs = length (_percentiles this).
Proof.
  unfold getValue, formatFinalValue.
  destruct (Algo_computePercentiles_nil_or_length (_algo this) (_percentiles this))
    as [Hnil|Hlen].
  - rewrite Hnil. eexists. split; [done|]. apply length_replicate.
  - destruct (Algo_computePercentiles _ _) as [|pctl pctls] eqn:Hpctls.
    + eexists. split; [done|]. apply length_replicate.
    + eexists. split; [done|]. by rewrite length_fmap.
Qed.

Lemma getValue_no_data ps method maxMemoryUsageBytes :
  getValue (AccumulatorPercentile_new ps method maxMemoryUsageBytes) false
  = VArray (replicate (length ps) VNull).
Proof.
  unfold getValue, AccumulatorPercentile_new. cbn [_algo _percentiles].
  by rewrite Algo_computePercentiles_create.
Qed.

(** [reset] keeps no sample: the accumulator finalizes to nulls again, with
    the method and the limit it had. *)
Lemma reset_discards this :
  getValue (reset this) false = VArray (replicate (length (_percentiles this)) VNull) ∧
  _method (reset this) = _method this ∧
  maxAllowedMemoryUsageBytes (_memUsageTracker (reset this))
  = maxAllowedMemoryUsageBytes (_memUsageTracker this).
Proof.
  split; [|done]. unfold getValue, reset. cbn [_algo _percentiles].
  by rewrite Algo_computePercentiles_create.
Qed.

Lemma getValue_with_data this a input :
  Forall validFraction (_percentiles this) → _algo this = Algo_incorporate a input →
  getValue this false
  = VArray (VDouble <$> Algo_computePercentiles (_algo this) (_percentiles this)) ∧
  length (Algo_computePercentiles (_algo this) (_percentiles this))
  = length (_percentiles this).
Proof.
  intros Hps Halgo. rewrite Halgo.
  pose proof (Algo_computePercentiles_incorporate a input _ Hps) as Hlen.
  split; [|done]. unfold getValue, formatFinalValue. rewrite Halgo.
  destruct (Algo_computePercentiles _ _) as [|pctl pctls]; [|done].
  destruct (_percentiles this); [done|discriminate].
Qed.

(** C2: a non-merge finalize returns an array with one entry per requested
    fraction; after a run that saw no numeric value (and merged nothing)
    every entry is null; after a run that saw a numeric value the entries
    are the percentiles that the algorithm computed for the fractions, in
    the order of the fractions, none of them replaced by null. *)
Theorem percentile_finalize_sequence (this : AccumulatorPercentile TDigest) :
  (∃ vs, getValue this false = VArray vs ∧ length vs = length (_percentiles this)) ∧
  (∀ ps method maxMemoryUsageBytes inputs,
     this = (processAll (AccumulatorPercentile_new ps method maxMemoryUsageBytes)
               inputs false).1 →
     (Forall (λ v, numeric v = false) inputs →
      getValue this false = VArray (replicate (length ps) VNull)) ∧
     (Forall validFraction ps → Exists (λ v, numeric v = true) inputs →
      ∃ pctls, pctls = Algo_computePercentiles (_algo this) ps ∧
               length pctls = length ps ∧
               getValue this false = VArray (VDouble <$> pctls))).
Proof.
  split; [apply getValue_length|].
  intros ps method maxMemoryUsageBytes inputs ->. split.
  - intros Hnone. rewrite processAll_non_numeric by done. apply getValue_no_data.
  - intros Hps Hseen.
    destruct (processAll_seen (AccumulatorPercentile_new ps method maxMemoryUsageBytes)
                inputs Hseen) as (a & input & Halgo).
    pose proof (processAll_members (AccumulatorPercentile_new ps method maxMemoryUsageBytes)
                  inputs false) as (Hsame & _).
    cbn [AccumulatorPercentile_new _percentiles] in Hsame.
    set (this := (processAll _ inputs false).1) in *.
    destruct (getValue_with_data this a input) as [Hvalue Hlen]; [by rewrite Hsame|done|].
    rewrite Hsame in Hvalue, Hlen. by eexists.
Qed.

(** C4: a value that is not numeric (null, missing, an array and a date are
    such values) leaves the accumulator as it is and throws nothing; a run
    gives the same accumulator and the same outcome with or without it; and
    a run over values none of which is numeric throws nothing and finalizes
    to one null per fraction. *)
Theorem non_numeric_ingest_is_noop (this : AccumulatorPercentile TDigest) (input : Value) :
  numeric input = false →
  processInternal this input false = (this, OK) ∧
  (∀ before after,
     processAll this (before ++ input :: after) false
     = processAll this (before ++ after) false) ∧
  (∀ ps method maxMemoryUsageBytes inputs,
     Forall (λ v, numeric v = false) inputs →
     let fresh := AccumulatorPercentile_new ps method maxMemoryUsageBytes in
     processAll fresh inputs false = (fresh, OK) ∧
     getValue (processAll fresh inputs false).1 false
     = VArray (replicate (length ps) VNull)) ∧
  numeric VNull = false ∧ numeric VMissing = false ∧
  (∀ vs, numeric (VArray vs) = false) ∧ (∀ millis, numeric (VDate millis) = false).
Proof.
  intros Hnum. split; [by apply processInternal_non_numeric|]. split; [|split].
  - intros before after. rewrite !processAll_app.
    destruct (processAll this before false) as [this' [|c r]]; [|done].
    by rewrite processAll_cons, processInternal_non_numeric.
  - intros ps method maxMemoryUsageBytes inputs Hnone fresh.
    rewrite processAll_non_numeric by done. split; [done|]. apply getValue_no_data.
  - done.
Qed.

Lemma processInternal_tracks this input merging :
  merging = true ∨ numeric input = true →
  processInternal this input merging
  = trackMemory this (if merging then Algo_combine (_algo this) input
                      else Algo_incorporate (_algo this) (coerceToDouble input)).
Proof.
  intros Hcall. destruct merging; [done|]. destruct Hcall as [?|Hnum]; [done|].
  by apply processInternal_numeric.
Qed.

(** C5: a call of [processInternal] that merges, or that is given a numeric
    value, sets the tracked usage to [sizeof *this] plus the footprint of
    the algorithm as the call leaves it, and leaves the limit and the
    method as they were; it returns when that usage is within the limit and
    otherwise throws [ExceededMemoryLimit] with a reason that shows the
    tracked usage and the tracked limit. *)
Theorem memory_usage_recomputed (this : AccumulatorPercentile TDigest)
    (input : Value) (merging : bool) :
  merging = true ∨ numeric input = true →
  let this' := (processInternal this input merging).1 in
  let status := (processInternal this input merging).2 in
  let tracker := _memUsageTracker this' in
  _algo this' = (if merging then Algo_combine (_algo this) input
                 else Algo_incorporate (_algo this) (coerceToDouble input)) ∧
  _method this' = _method this ∧
  currentMemoryBytes tracker = sizeofThis + Algo_memUsageBytes (_algo this') ∧
  maxAllowedMemoryUsageBytes tracker
    = maxAllowedMemoryUsageBytes (_memUsageTracker this) ∧
  (currentMemoryBytes tracker ≤ maxAllowedMemoryUsageBytes tracker → status = OK) ∧
  (maxAllowedMemoryUsageBytes tracker < currentMemoryBytes tracker →
   status = Error ExceededMemoryLimit
     [Text "$percentile used too much memory and cannot spill to disk. Used: ";
      ShownInt (currentMemoryBytes tracker);
      Text " bytes. Memory limit: ";
      ShownInt (maxAllowedMemoryUsageBytes tracker);
      Text " bytes"]).
Proof.
  intros Hcall. rewrite (processInternal_tracks _ _ _ Hcall).
  set (a := if merging then _ else _).
  pose proof (trackMemory_members this a) as (Halgo & _ & Hmethod & Hcur & Hmax).
  pose proof (trackMemory_status this a) as Hstatus.
  cbv zeta in *. rewrite Halgo.
  repeat split; try done.
  - intros Hle. destruct Hstatus as [[_ ->]|[Hlt _]]; [done|lia].
  - intros Hlt. destruct Hstatus as [[Hle _]|[_ ->]]; [lia|done].
Qed.

(** C10: when a call of [processInternal] throws, the error is
    [ExceededMemoryLimit] and the accumulator it leaves behind holds the
    algorithm with the value (or the partial state) already taken in, and a
    tracker that records the usage above the limit: nothing is rolled
    back. *)
Theorem memory_limit_failure_keeps_input (this this' : AccumulatorPercentile TDigest)
    (input : Value) (merging : bool) (c : ErrorCodes) (reason : Message) :
  processInternal this input merging = (this', Error c reason) →
  c = ExceededMemoryLimit ∧
  _algo this' = (if merging then Algo_combine (_algo this) input
                 else Algo_incorporate (_algo this) (coerceToDouble input)) ∧
  currentMemoryBytes (_memUsageTracker this')
    = sizeofThis + Algo_memUsageBytes (_algo this') ∧
  maxAllowedMemoryUsageBytes (_memUsageTracker this')
    < currentMemoryBytes (_memUsageTracker this').
Proof.
  intros Hthrows.
  assert (merging = true ∨ numeric input = true) as Hcall.
  { destruct merging; [by left|right]. destruct (numeric input) eqn:Hnum; [done|].
    by rewrite processInternal_non_numeric in Hthrows. }
  rewrite (processInternal_tracks _ _ _ Hcall) in Hthrows.
  set (a := if merging then _ else _) in *.
  pose proof (trackMemory_members this a) as (Halgo & _ & _ & Hcur & _).
  pose proof (trackMemory_status this a) as Hstatus.
  rewrite Hthrows in Halgo, Hcur, Hstatus. cbv zeta in Hstatus. cbn [fst snd] in *.
  destruct Hstatus as [[_ [=]]|[Hlt [= -> _]]]. by rewrite Halgo.
Qed.

(** *** The median *)

Lemma AccumulatorMedian_new_members unused method maxMemoryUsageBytes :
  _percentiles (AccumulatorMedian_new unused method maxMemoryUsageBytes) = [ratio 1 2] ∧
  _algo (AccumulatorMedian_new unused method maxMemoryUsageBytes)
    = createPercentileAlgorithm method.
Proof. done. Qed.

(** C9: for the median, a non-merge finalize after a run that saw no
    numeric value is the single value null; after a run that saw a numeric
    value it is the one computed percentile, not wrapped in an array; the
    formatting throws the assertion 7436101 when it is given more than one
    percentile; and a merge-phase finalize is the merge-phase finalize of
    $percentile. *)
Theorem median_finalize (unused : list double) (method : PercentileMethodEnum)
    (maxMemoryUsageBytes : option Z) (inputs : list Value) :
  let this :=
    (processAll (AccumulatorMedian_new unused method maxMemoryUsageBytes) inputs false).1 in
  (Forall (λ v, numeric v = false) inputs →
   AccumulatorMedian_getValue this false = Returns VNull) ∧
  (Exists (λ v, numeric v = true) inputs →
   ∃ median, Algo_computePercentiles (_algo this) [ratio 1 2] = [median] ∧
             AccumulatorMedian_getValue this false = Returns (VDouble median)) ∧
  (∀ nPercentiles first second rest,
     AccumulatorMedian_formatFinalValue nPercentiles (first :: second :: rest)
     = Thrown (Location 7436101)
         [Text "the percentile method for median must return a single result."]) ∧
  (∀ anyState : AccumulatorPercentile TDigest,
     AccumulatorMedian_getValue anyState true = Returns (getValue anyState true)).
Proof.
  intros this.
  pose proof (processAll_members
    (AccumulatorMedian_new unused method maxMemoryUsageBytes) inputs false) as (Hps & _).
  fold this in Hps. rewrite (proj1 (AccumulatorMedian_new_members _ _ _)) in Hps.
  split; [|split; [|split]].
  - intros Hnone. unfold this. rewrite processAll_non_numeric by done. cbn [fst].
    unfold AccumulatorMedian_getValue.
    rewrite (proj2 (AccumulatorMedian_new_members _ _ _)).
    by rewrite Algo_computePercentiles_create.
  - intros Hseen.
    destruct (processAll_seen (AccumulatorMedian_new unused method maxMemoryUsageBytes)
                inputs Hseen) as (a & input & Halgo).
    fold this in Halgo.
    pose proof (Algo_computePercentiles_incorporate a input [ratio 1 2]) as Hlen.
    rewrite <-Halgo in Hlen.
    unfold AccumulatorMedian_getValue. rewrite Hps.
    destruct (Algo_computePercentiles (_algo this) [ratio 1 2]) as [|median [|second rest]].
    + discriminate Hlen. constructor; [apply validFraction_half|constructor].
    + by exists median.
    + discriminate Hlen. constructor; [apply validFraction_half|constructor].
  - done.
  - done.
Qed.

(** *** The exact methods through the accumulator *)

Lemma combine_serialize values values' :
  AccuratePercentile.combine values (AccuratePercentile.serialize values')
  = values ++ values'.
Proof.
  unfold AccuratePercentile.combine, AccuratePercentile.serialize.
  f_equal. rewrite <-list_fmap_compose. apply list_fmap_id.
Qed.

Lemma numericInputs_app inputs inputs' :
  numericInputs (inputs ++ inputs') = numericInputs inputs ++ numericInputs inputs'.
Proof. unfold numericInputs. by rewrite filter_app, fmap_app. Qed.

Lemma foldl_incorporate_discrete values inputs :
  foldl Algo_incorporate (DiscreteAlgo values) inputs
  = DiscreteAlgo (TDigest:=TDigest) (values ++ inputs).
Proof.
  revert values. induction inputs as [|input inputs IH]; intros values; simpl.
  - by rewrite app_nil_r.
  - rewrite IH. unfold AccuratePercentile.incorporate. by rewrite <-app_assoc.
Qed.

Lemma foldl_incorporate_continuous values inputs :
  foldl Algo_incorporate (ContinuousAlgo values) inputs
  = ContinuousAlgo (TDigest:=TDigest) (values ++ inputs).
Proof.
  revert values. induction inputs as [|input inputs IH]; intros values; simpl.
  - by rewrite app_nil_r.
  - rewrite IH. unfold AccuratePercentile.incorporate. by rewrite <-app_assoc.
Qed.

(** What a run that returns leaves in an accumulator of an exact method:
    the numeric inputs, in the order in which they came. *)
Lemma processAll_exact ps method inputs this :
  method ≠ kApproximateMethod →
  processAll (create ps method) inputs false = (this, OK) →
  _percentiles this = ps ∧
  _algo this = match method with
               | kContinuousMethod => ContinuousAlgo (numericInputs inputs)
               | _ => DiscreteAlgo (numericInputs inputs)
               end.
Proof.
  intros Hexact Hrun.
  pose proof (processAll_members (create ps method) inputs false) as (Hps & _).
  rewrite Hrun in Hps. split; [done|].
  rewrite (processAll_ingest_OK _ _ _ Hrun).
  destruct method; [done|..]; cbn [create AccumulatorPercentile_new _algo
    createPercentileAlgorithm].
  - apply foldl_incorporate_discrete.
  - apply foldl_incorporate_continuous.
Qed.

Lemma getValue_continuous this values :
  values ≠ [] → Forall validFraction (_percentiles this) →
  _algo this = ContinuousAlgo values →
  getValue this false
  = VArray (VDouble <$> ContinuousPercentile.computePercentiles values (_percentiles this)).
Proof.
  intros Hne Hps Halgo. unfold getValue, formatFinalValue. rewrite Halgo.
  cbn [Algo_computePercentiles].
  pose proof (continuous_computePercentiles_valid values _ Hne Hps) as Hall.
  destruct (ContinuousPercentile.computePercentiles _ _); [|done].
  apply Forall2_nil_inv_r in Hall. by rewrite Hall.
Qed.

(** C1: for a sample that is not empty and fractions of [0, 1], the
    continuous method returns, for each fraction p, the linear interpolation
    between the adjacent order statistics at the 0-indexed rank p * (n - 1),
    exactly; this is what the accumulator finalizes to; the fraction 0
    gives the minimum and the fraction 1 the maximum of the sample; and the
    sample {0, 1, 2} with the fractions {0.5, 0.9, 0.1} gives
    {1, 1.8, 0.2}. *)
Theorem continuous_interpolates (values ps : list double) :
  values ≠ [] → Forall validFraction ps →
  ∃ os, orderStatistics values os ∧
    Forall2 (λ p r, interpolatesAt os (p * double_of_Z (Z.of_nat (length values) - 1))%Qc r)
      ps (ContinuousPercentile.computePercentiles values ps) ∧
    (∀ inputs (this : AccumulatorPercentile TDigest),
       numericInputs inputs = values →
       processAll (create ps kContinuousMethod) inputs false = (this, OK) →
       getValue this false
       = VArray (VDouble <$> ContinuousPercentile.computePercentiles values ps)) ∧
    (∃ m, ContinuousPercentile.computePercentiles values [0%Qc] = [m] ∧
          isMinimum m values) ∧
    (∃ m, ContinuousPercentile.computePercentiles values [1%Qc] = [m] ∧
          isMaximum m values) ∧
    ContinuousPercentile.computePercentiles
      [ratio 0 1; ratio 1 1; ratio 2 1] [ratio 1 2; ratio 9 10; ratio 1 10]
    = [ratio 1 1; ratio 9 5; ratio 1 5].
Proof.
  intros Hne Hps. exists (AccuratePercentile.sorted values).
  split; [apply sorted_orderStatistics|]. split; [|split; [|split; [|split]]].
  - by apply continuous_interpolatesAt.
  - intros inputs this Hinputs Hrun.
    destruct (processAll_exact ps kContinuousMethod inputs this) as [Hps' Halgo];
      [done..|].
    rewrite Hinputs in Halgo. rewrite <-Hps'. apply getValue_continuous; by rewrite ?Hps'.
  - by apply continuous_minimum.
  - by apply continuous_maximum.
  - vm_compute. reflexivity.
Qed.

Lemma discrete_nearestRank values ps :
  values ≠ [] →
  Forall2 (λ p r, nearestRank (AccuratePercentile.sorted values) p r)
    ps (DiscretePercentile.computePercentiles values ps).
Proof.
  intros Hne. eapply Forall2_impl; [by apply discrete_computePercentiles_all|].
  intros p r Hr. simpl in Hr.
  destruct (discrete_computePercentile_spec values p Hne) as (r' & Hr' & Hrank).
  by simplify_eq.
Qed.

Lemma getValue_discrete this values :
  values ≠ [] →
  _algo this = DiscreteAlgo values →
  getValue this false
  = VArray (VDouble <$> DiscretePercentile.computePercentiles values (_percentiles this)).
Proof.
  intros Hne Halgo. unfold getValue, formatFinalValue. rewrite Halgo.
  cbn [Algo_computePercentiles].
  pose proof (discrete_computePercentiles_all values (_percentiles this) Hne) as Hall.
  destruct (DiscretePercentile.computePercentiles _ _); [|done].
  apply Forall2_nil_inv_r in Hall. by rewrite Hall.
Qed.

(** C7: for a sample that is not empty, the discrete method returns, for
    each fraction p, the order statistic at the 1-indexed rank ceil (p * n)
    clamped to [1, n]; this is what the accumulator finalizes to; and both
    the discrete and the continuous method give the minimum of the sample
    at the fraction 0 and its maximum at the fraction 1. *)
Theorem discrete_nearest_rank (values ps : list double) :
  values ≠ [] →
  ∃ os, orderStatistics values os ∧
    Forall2 (λ p r, nearestRank os p r)
      ps (DiscretePercentile.computePercentiles values ps) ∧
    (∀ inputs (this : AccumulatorPercentile TDigest),
       numericInputs inputs = values →
       processAll (create ps kDiscreteMethod) inputs false = (this, OK) →
       getValue this false
       = VArray (VDouble <$> DiscretePercentile.computePercentiles values ps)) ∧
    (∃ m, DiscretePercentile.computePercentiles values [0%Qc] = [m] ∧
          isMinimum m values) ∧
    (∃ m, DiscretePercentile.computePercentiles values [1%Qc] = [m] ∧
          isMaximum m values) ∧
    (∃ m, ContinuousPercentile.computePercentiles values [0%Qc] = [m] ∧
          isMinimum m values) ∧
    (∃ m, ContinuousPercentile.computePercentiles values [1%Qc] = [m] ∧
          isMaximum m values).
Proof.
  intros Hne. exists (AccuratePercentile.sorted values).
  split; [apply sorted_orderStatistics|].
  split; [by apply discrete_nearestRank|]. split.
  - intros inputs this Hinputs Hrun.
    destruct (processAll_exact ps kDiscreteMethod inputs this) as [Hps' Halgo];
      [done..|].
    rewrite Hinputs in Halgo. rewrite <-Hps'. by apply getValue_discrete.
  - auto using discrete_minimum, discrete_maximum, continuous_minimum,
      continuous_maximum.
Qed.

(** *** Merging *)

Lemma Algo_computePercentiles_discrete_Permutation values values' ps :
  values ≡ₚ values' →
  DiscretePercentile.computePercentiles values ps
  = DiscretePercentile.computePercentiles values' ps.
Proof.
  intros Hperm.
  apply (computePercentiles_Permutation DiscretePercentile.computePercentile).
  intros p. by apply discrete_computePercentile_Permutation.
Qed.

Lemma Algo_computePercentiles_continuous_Permutation values values' ps :
  values ≡ₚ values' →
  ContinuousPercentile.computePercentiles values ps
  = ContinuousPercentile.computePercentiles values' ps.
Proof.
  intros Hperm.
  apply (computePercentiles_Permutation ContinuousPercentile.computePercentile).
  intros p. by apply continuous_computePercentile_Permutation.
Qed.

(** What merging partial states leaves in an accumulator of an exact
    method, when the partial states are those of exact accumulators. *)
Lemma processAll_merge_exact ps method values1 values2 merged :
  method ≠ kApproximateMethod →
  processAll (create ps method)
    [AccuratePercentile.serialize values1; AccuratePercentile.serialize values2] true
  = (merged, OK) →
  _percentiles merged = ps ∧
  _algo merged = match method with
                 | kContinuousMethod => ContinuousAlgo (values1 ++ values2)
                 | _ => DiscreteAlgo (values1 ++ values2)
                 end.
Proof.
  intros Hexact Hrun.
  pose proof (processAll_members (create ps method)
    [AccuratePercentile.serialize values1; AccuratePercentile.serialize values2] true)
    as (Hps & _).
  rewrite Hrun in Hps. split; [done|].
  rewrite (processAll_merge_OK _ _ _ Hrun).
  destruct method; [done|..];
    cbn [create AccumulatorPercentile_new _algo createPercentileAlgorithm foldl
         Algo_combine];
    by rewrite !combine_serialize.
Qed.

Lemma getValue_exact_serialize ps method inputs this :
  method ≠ kApproximateMethod →
  processAll (create ps method) inputs false = (this, OK) →
  getValue this true = AccuratePercentile.serialize (numericInputs inputs).
Proof.
  intros Hexact Hrun.
  destruct (processAll_exact ps method inputs this Hexact Hrun) as [_ Halgo].
  unfold getValue. rewrite Halgo. by destruct method.
Qed.

Lemma getValue_Permutation this this' method values values' :
  method ≠ kApproximateMethod → values ≡ₚ values' →
  _percentiles this = _percentiles this' →
  _algo this = match method with
               | kContinuousMethod => ContinuousAlgo values
               | _ => DiscreteAlgo values
               end →
  _algo this' = match method with
                | kContinuousMethod => ContinuousAlgo values'
                | _ => DiscreteAlgo values'
                end →
  getValue this false = getValue this' false.
Proof.
  intros Hexact Hperm Hps Halgo Halgo'. unfold getValue.
  rewrite Halgo, Halgo', Hps.
  destruct method; [done|..]; cbn [Algo_computePercentiles].
  - by rewrite (Algo_computePercentiles_discrete_Permutation _ _ _ Hperm).
  - by rewrite (Algo_computePercentiles_continuous_Permutation _ _ _ Hperm).
Qed.

(** C6: for the discrete and the continuous method, an accumulator that has
    merged the partial states of two accumulators finalizes to what an
    accumulator given the inputs of both finalizes to; merging the two
    partial states in the other order, or merging the second partial state
    into the first accumulator, changes nothing; and on the buffers combining
    is associative, and the percentiles of a combination do not depend on the
    order of the partial states. *)
Theorem exact_merge_equals_direct (method : PercentileMethodEnum) (ps : list double)
    (inputs1 inputs2 : list Value)
    (this1 this2 merged direct : AccumulatorPercentile TDigest) :
  method ≠ kApproximateMethod →
  processAll (create ps method) inputs1 false = (this1, OK) →
  processAll (create ps method) inputs2 false = (this2, OK) →
  processAll (create ps method) [getValue this1 true; getValue this2 true] true
    = (merged, OK) →
  processAll (create ps method) (inputs1 ++ inputs2) false = (direct, OK) →
  getValue merged false = getValue direct false ∧
  (∀ swapped,
     processAll (create ps method) [getValue this2 true; getValue this1 true] true
       = (swapped, OK) →
     getValue swapped false = getValue merged false) ∧
  (∀ into,
     processInternal this1 (getValue this2 true) true = (into, OK) →
     getValue into false = getValue direct false) ∧
  (∀ a b c : list double,
     AccuratePercentile.combine
       (AccuratePercentile.combine a (AccuratePercentile.serialize b))
       (AccuratePercentile.serialize c)
     = AccuratePercentile.combine a
         (AccuratePercentile.serialize
            (AccuratePercentile.combine b (AccuratePercentile.serialize c)))) ∧
  (∀ (a b c : list double) fractions,
     let bc := AccuratePercentile.combine
                 (AccuratePercentile.combine a (AccuratePercentile.serialize b))
                 (AccuratePercentile.serialize c) in
     let cb := AccuratePercentile.combine
                 (AccuratePercentile.combine a (AccuratePercentile.serialize c))
                 (AccuratePercentile.serialize b) in
     DiscretePercentile.computePercentiles bc fractions
       = DiscretePercentile.computePercentiles cb fractions ∧
     ContinuousPercentile.computePercentiles bc fractions
       = ContinuousPercentile.computePercentiles cb fractions).
Proof.
  intros Hexact Hrun1 Hrun2 Hmerge Hdirect.
  rewrite (getValue_exact_serialize _ _ _ _ Hexact Hrun1) in Hmerge |- *.
  rewrite (getValue_exact_serialize _ _ _ _ Hexact Hrun2) in Hmerge |- *.
  destruct (processAll_merge_exact _ _ _ _ _ Hexact Hmerge) as [Hps Halgo].
  destruct (processAll_exact _ _ _ _ Hexact Hdirect) as [Hps' Halgo'].
  rewrite numericInputs_app in Halgo'.
  destruct (processAll_exact _ _ _ _ Hexact Hrun1) as [Hps1 Halgo1].
  split; [|split; [|split; [|split]]].
  - eapply (getValue_Permutation _ _ method); [done| |by rewrite Hps, Hps'|done..].
    done.
  - intros swapped Hswap.
    destruct (processAll_merge_exact _ _ _ _ _ Hexact Hswap) as [Hps'' Halgo''].
    eapply (getValue_Permutation _ _ method); [done| |by rewrite Hps, Hps''|done..].
    apply Permutation_app_comm.
  - intros into Hinto.
    pose proof (processInternal_members this1
      (AccuratePercentile.serialize (numericInputs inputs2)) true) as (Hps'' & _).
    pose proof (proj1 (trackMemory_members this1
      (Algo_combine (_algo this1) (AccuratePercentile.serialize (numericInputs inputs2)))))
      as Halgo''.
    change (trackMemory this1 _) with
      (processInternal this1 (AccuratePercentile.serialize (numericInputs inputs2)) true)
      in Halgo''.
    rewrite Hinto in Hps'', Halgo''. cbn [fst] in Hps'', Halgo''.
    eapply (getValue_Permutation _ _ method (numericInputs inputs1 ++ numericInputs inputs2));
      [done|done|by rewrite Hps'', Hps1, Hps'| |done].
    rewrite Halgo'', Halgo1. destruct method; [done|..]; cbn [Algo_combine];
      by rewrite combine_serialize.
  - intros a b c. rewrite !combine_serialize. by rewrite app_assoc.
  - intros a b c fractions bc cb. unfold bc, cb. rewrite !combine_serialize.
    assert ((a ++ b) ++ c ≡ₚ (a ++ c) ++ b) as Hperm.
    { rewrite <-!app_assoc. apply Permutation_app_head, Permutation_app_comm. }
    split.
    + by apply Algo_computePercentiles_discrete_Permutation.
    + by apply Algo_computePercentiles_continuous_Permutation.
Qed.

End AccumulatorProperties.

(** * The statements at concrete inputs

    The approximate method is the uncompressed sketch and the parameters are
    [testParameters]. *)

#[local] Existing Instance testParameters.


Lemma percentile_finalize_sequence_witness :
  let this : AccumulatorPercentile UncompressedSketch.t :=
    (processAll (create [ratio 1 2; ratio 9 10] kApproximateMethod) [VInt 3] false).1 in
  PercentileAlgorithmLaws UncompressedSketch.t ∧
  ∃ vs, getValue this false = VArray vs ∧ length vs = length (_percentiles this).
Proof.
  intros this. split; [exact UncompressedSketch_laws|].
  exact (proj1 (percentile_finalize_sequence this)).
Defined.

Lemma non_numeric_ingest_is_noop_witness :
  let this : AccumulatorPercentile UncompressedSketch.t :=
    create [ratio 1 2; ratio 9 10] kContinuousMethod in
  let input := VString "non-numeric" in
  numeric input = false ∧ processInternal this input false = (this, OK).
Proof.
  intros this input. split; [reflexivity|].
  exact (proj1 (non_numeric_ingest_is_noop this input eq_refl)).
Defined.

Lemma memory_usage_recomputed_witness :
  let this : AccumulatorPercentile UncompressedSketch.t := create [ratio 1 2] kDiscreteMethod in
  let input := VInt 7 in
  (false = true ∨ numeric input = true) ∧
  currentMemoryBytes (_memUsageTracker (processInternal this input false).1)
  = sizeofThis + Algo_memUsageBytes (_algo (processInternal this input false).1).
Proof.
  intros this input. split; [right; reflexivity|].
  exact (proj1 (proj2 (proj2
    (memory_usage_recomputed this input false (or_intror eq_refl))))).
Defined.

Lemma memory_limit_failure_keeps_input_witness :
  let this : AccumulatorPercentile UncompressedSketch.t :=
    AccumulatorPercentile_new [ratio 1 2] kDiscreteMethod (Some 130) in
  let input := VInt 7 in
  let this' := (processInternal this input false).1 in
  let reason := exceededMemoryLimit_msg (_memUsageTracker this') in
  processInternal this input false = (this', Error ExceededMemoryLimit reason) ∧
  _algo this' = DiscreteAlgo [double_of_Z 7] ∧
  currentMemoryBytes (_memUsageTracker this') = 136 ∧
  maxAllowedMemoryUsageBytes (_memUsageTracker this') = 130 ∧
  getValue this' false = VArray [VDouble (double_of_Z 7)].
Proof.
  intros this input this' reason.
  assert (processInternal this input false = (this', Error ExceededMemoryLimit reason))
    as Hthrows by (vm_compute; reflexivity).
  split; [exact Hthrows|].
  destruct (memory_limit_failure_keeps_input this this' input false
              ExceededMemoryLimit reason Hthrows) as (_ & Halgo & Hcur & _).
  split; [|split; [|split]].
  - rewrite Halgo. vm_compute. reflexivity.
  - rewrite Hcur, Halgo. vm_compute. reflexivity.
  - vm_compute. reflexivity.
  - vm_compute. reflexivity.
Defined.

Lemma median_finalize_witness :
  let this : AccumulatorPercentile UncompressedSketch.t :=
    (processAll (AccumulatorMedian_create [] kContinuousMethod)
       [VInt 5; VInt 10; VInt 27] false).1 in
  PercentileAlgorithmLaws UncompressedSketch.t ∧
  Exists (λ v, numeric v = true) [VInt 5; VInt 10; VInt 27] ∧
  ∃ median, Algo_computePercentiles (_algo this) [ratio 1 2] = [median] ∧
            AccumulatorMedian_getValue this false = Returns (VDouble median).
Proof.
  intros this. split; [exact UncompressedSketch_laws|].
  assert (Exists (λ v, numeric v = true) [VInt 5; VInt 10; VInt 27]) as Hseen
    by (left; reflexivity).
  split; [exact Hseen|].
  exact (proj1 (proj2 (median_finalize [] kContinuousMethod None
                         [VInt 5; VInt 10; VInt 27])) Hseen).
Defined.

Lemma continuous_interpolates_witness :
  let values := [ratio 0 1; ratio 1 1; ratio 2 1] in
  let ps := [ratio 1 2; ratio 9 10; ratio 1 10] in
  values ≠ [] ∧ Forall validFraction ps ∧
  ∃ os, orderStatistics values os ∧
    Forall2 (λ p r, interpolatesAt os (p * double_of_Z (Z.of_nat (length values) - 1))%Qc r)
      ps (ContinuousPercentile.computePercentiles values ps).
Proof.
  intros values ps.
  assert (values ≠ []) as Hne by discriminate.
  assert (Forall validFraction ps) as Hps
    by (repeat constructor; vm_compute; discriminate).
  split; [exact Hne|]. split; [exact Hps|].
  destruct (continuous_interpolates (TDigest:=UncompressedSketch.t) values ps Hne Hps)
    as (os & Hos & Hinterp & _).
  exists os. split; [exact Hos|exact Hinterp].
Defined.

Lemma discrete_nearest_rank_witness :
  let values := [ratio 10 1; ratio 5 1; ratio 27 1] in
  let ps := [ratio 1 2; ratio 0 1; ratio 1 1] in
  values ≠ [] ∧
  ∃ os, orderStatistics values os ∧
    Forall2 (λ p r, nearestRank os p r) ps (DiscretePercentile.computePercentiles values ps).
Proof.
  intros values ps.
  assert (values ≠ []) as Hne by discriminate.
  split; [exact Hne|].
  destruct (discrete_nearest_rank (TDigest:=UncompressedSketch.t) values ps Hne)
    as (os & Hos & Hrank & _).
  exists os. split; [exact Hos|exact Hrank].
Defined.

Lemma exact_merge_equals_direct_witness :
  let ps := [ratio 9 10] in
  let inputs1 := [VInt 0; VInt 1; VString "str"] in
  let inputs2 := [VInt 2; VInt 0] in
  let fresh : AccumulatorPercentile UncompressedSketch.t := create ps kContinuousMethod in
  let this1 := (processAll fresh inputs1 false).1 in
  let this2 := (processAll fresh inputs2 false).1 in
  let merged := (processAll fresh [getValue this1 true; getValue this2 true] true).1 in
  let direct := (processAll fresh (inputs1 ++ inputs2) false).1 in
  kContinuousMethod ≠ kApproximateMethod ∧
  processAll fresh inputs1 false = (this1, OK) ∧
  processAll fresh inputs2 false = (this2, OK) ∧
  processAll fresh [getValue this1 true; getValue this2 true] true = (merged, OK) ∧
  processAll fresh (inputs1 ++ inputs2) false = (direct, OK) ∧
  getValue merged false = getValue direct false.
Proof.
  intros ps inputs1 inputs2 fresh this1 this2 merged direct.
  assert (kContinuousMethod ≠ kApproximateMethod) as Hexact by discriminate.
  assert (processAll fresh inputs1 false = (this1, OK)) as H1 by (vm_compute; reflexivity).
  assert (processAll fresh inputs2 false = (this2, OK)) as H2 by (vm_compute; reflexivity).
  assert (processAll fresh [getValue this1 true; getValue this2 true] true = (merged, OK))
    as Hm by (vm_compute; reflexivity).
  assert (processAll fresh (inputs1 ++ inputs2) false = (direct, OK)) as Hd
    by (vm_compute; reflexivity).
  repeat (split; [assumption|]).
  exact (proj1 (exact_merge_equals_direct kContinuousMethod ps inputs1 inputs2
                  this1 this2 merged direct Hexact H1 H2 Hm Hd)).
Defined.

(** * The cases of the test file of the continuous method

    The documents of percentiles_continuous.js, without the NaN of the two
    cases of data that is not numeric, which has no counterpart among the
    doubles of this model. *)

Ltac same_doubles :=
  vm_compute;
  repeat match goal with
         | |- Returns _ = Returns _ => f_equal
         | |- VArray _ = VArray _ => f_equal
         | |- _ :: _ = _ :: _ => f_equal
         | |- VDouble _ = VDouble _ => f_equal
         | |- @eq Qc _ _ => apply Qc_is_canon; reflexivity
         end;
  try reflexivity.

Example non_numeric_data_is_ignored :
  testWithSingleGroup [VInt 0; VString "non-numeric"; VInt 1; VMissing; VInt 2]
    [ratio 1 2] kContinuousMethod
  = VArray [VDouble (ratio 1 1)].
Proof. same_doubles. Qed.

Example single_percentile_of_non_numeric_data :
  testWithSingleGroup
    [VString "non-numeric"; VMissing; VDate 0; VArray [VInt 42; VInt 43]; VNull]
    [ratio 1 2] kContinuousMethod
  = VArray [VNull].
Proof. same_doubles. Qed.

Example multiple_percentiles_of_non_numeric_data :
  testWithSingleGroup
    [VString "non-numeric"; VMissing; VDate 0; VArray [VInt 42; VInt 43]; VNull]
    [ratio 1 2; ratio 9 10] kContinuousMethod
  = VArray [VNull; VNull].
Proof. same_doubles. Qed.

Example minimum_percentile :
  testWithSingleGroup [VInt 10; VInt 5; VInt 27] [ratio 0 1] kContinuousMethod
  = VArray [VDouble (ratio 5 1)].
Proof. same_doubles. Qed.

Example maximum_percentile :
  testWithSingleGroup [VInt 10; VInt 5; VInt 27] [ratio 1 1] kContinuousMethod
  = VArray [VDouble (ratio 27 1)].
Proof. same_doubles. Qed.

Example multiple_percentiles :
  testWithSingleGroup [VInt 0; VInt 1; VInt 2] [ratio 1 2; ratio 9 10; ratio 1 10] kContinuousMethod
  = VArray [VDouble (ratio 1 1); VDouble (ratio 18 10); VDouble (ratio 2 10)].
Proof. same_doubles. Qed.

Example multiple_percentiles_of_an_expression :
  testWithSingleGroup [VInt (42 + 0); VInt (42 + 1); VInt (42 + 2)]
    [ratio 1 2; ratio 9 10; ratio 1 10] kContinuousMethod
  = VArray [VDouble (ratio 43 1); VDouble (ratio 438 10); VDouble (ratio 422 10)].
Proof. same_doubles. Qed.

Example multiple_groups :
  testWithSingleGroup [VInt 0; VInt 1; VString "str"] [ratio 9 10] kContinuousMethod
    = VArray [VDouble (ratio 9 10)] ∧
  testWithSingleGroup [VInt 2; VInt 0] [ratio 9 10] kContinuousMethod
    = VArray [VDouble (ratio 18 10)] ∧
  testWithSingleGroup [VMissing] [ratio 9 10] kContinuousMethod
    = VArray [VNull].
Proof. repeat split; same_doubles. Qed.

(** The median of {5, 10, 27} is 10 with either exact method. *)
Example median_of_three :
  ∀ method, method ≠ kApproximateMethod →
    AccumulatorMedian_getValue
      (processAll
         (AccumulatorMedian_create (TDigest:=UncompressedSketch.t) [] method)
         [VInt 5; VInt 10; VInt 27] false).1
      false
    = Returns (VDouble (double_of_Z 10)).
Proof. intros [] ?; [done|..]; same_doubles. Qed.

(** * Further properties of accumulator_percentile.cpp *)

(** ** Method names *)

Lemma methodNameToEnum_of_name method :
  methodNameToEnum (percentileMethodEnumToString method) = Returns method.
Proof. by destruct method. Qed.

(** X1: the name of a method converts back to the method, a name that
    converts to a method is the name of that method, and with the feature
    flag on the name of every method passes the validation. *)
Theorem method_name_round_trip (method : PercentileMethodEnum) (name : string) :
  methodNameToEnum (percentileMethodEnumToString method) = Returns method ∧
  (methodNameToEnum name = Returns method → percentileMethodEnumToString method = name) ∧
  validatePercentileMethod true (percentileMethodEnumToString method) = OK.
Proof.
  split; [apply methodNameToEnum_of_name|]. split; [|by destruct method].
  unfold methodNameToEnum. repeat case_bool_decide; intros [= <-]; by subst.
Qed.

(** ** The parsers *)

Lemma parse_validated flag obj :
  (∃ reason, AccumulatorPercentileSpec_parse flag obj = Thrown BadValue reason) ∨
  (AccumulatorPercentileSpec_parse flag obj = Returns obj ∧
   ∃ m, methodNameToEnum (getMethod obj) = Returns m).
Proof.
  unfold AccumulatorPercentileSpec_parse.
  destruct (validatePercentileMethod_code flag (getMethod obj)) as [Hok|[reason Herr]].
  - right. rewrite Hok. split; [done|].
    destruct (methodNameToEnum_after_validation _ _ Hok) as (m & Hm & _). eauto.
  - left. rewrite Herr. eauto.
Qed.

(** X2: [parseExpression] parses what [parseArgs] parses, in the same
    order: on an object it returns the fractions, the input and the method
    that [parseArgs] returns and throws what [parseArgs] throws, and on an
    element that is not an object the two differ in the code of the error
    only.  [parsePercentileAndMethod] does not parse 'input': whichever of
    its two arguments is evaluated first, its outcome is the same for every
    'input', and it is that of [parseArgs], less the input, when 'input'
    parses; when the method is accepted and the operand parser throws on
    'input', [parseArgs] throws that exception and
    [parsePercentileAndMethod] goes on to 'p' and the method. *)
Theorem percentile_parsers_agree (flag : bool) (obj : AccumulatorPercentileSpec)
    (shown : string) :
  parseExpression flag (ElemObject obj)
  = (parsed ←! parseArgs flag (ElemObject obj);
     Returns {| quantilePs := parsed.1.2;
                quantileInput := parsed.1.1;
                quantileMethod := parsed.2 |}) ∧
  (∀ pFirst input,
     parseOperand (getInput obj) = Returns input →
     parsePercentileAndMethod flag pFirst obj
     = (parsed ←! parseArgs flag (ElemObject obj); Returns (parsed.1.2, parsed.2))) ∧
  (∀ pFirst other,
     parsePercentileAndMethod flag pFirst obj
     = parsePercentileAndMethod flag pFirst
         {| getInput := other; getP := getP obj; getMethod := getMethod obj |}) ∧
  (∀ pFirst c reason,
     acceptedMethod flag (getMethod obj) →
     parseOperand (getInput obj) = Thrown c reason →
     parseArgs flag (ElemObject obj) = Thrown c reason ∧
     parsePercentileAndMethod flag pFirst obj
     = (ps ←! parseP (getP obj);
        method ←! methodNameToEnum (getMethod obj);
        Returns (ps, method))) ∧
  parseArgs flag (ElemOther shown)
  = Thrown (Location 7429703) [Text "specification must be an object; found "; Text shown] ∧
  parseExpression flag (ElemOther shown)
  = Thrown (Location 7436200) [Text "specification must be an object; found "; Text shown].
Proof.
  split; [|split; [|split; [|split; [|done]]]].
  - unfold parseExpression, parseArgs.
    destruct (parse_validated flag obj) as [[reason ->]|[-> [m Hm]]]; [done|].
    cbn [bindT]. rewrite Hm.
    destruct (parseOperand (getInput obj)); [|done]. cbn [bindT].
    by destruct (parseP (getP obj)).
  - intros pFirst input Hinput. unfold parsePercentileAndMethod, parseArgs.
    destruct (parse_validated flag obj) as [[reason ->]|[-> [m Hm]]]; [done|].
    cbn [bindT]. rewrite Hinput, Hm.
    destruct pFirst; cbn [bindT]; by destruct (parseP (getP obj)).
  - intros pFirst other.
    unfold parsePercentileAndMethod, AccumulatorPercentileSpec_parse. cbn [getMethod].
    by destruct (validatePercentileMethod flag (getMethod obj)).
  - intros pFirst c reason Haccepted Hinput.
    apply validatePercentileMethod_OK in Haccepted as Hok.
    destruct (methodNameToEnum_after_validation _ _ Hok) as (m & Hm & _).
    unfold parsePercentileAndMethod, parseArgs, AccumulatorPercentileSpec_parse.
    rewrite Hok. cbn [bindT uassertStatusOK]. rewrite Hinput, Hm.
    split; [done|]. destruct pFirst; cbn [bindT]; by destruct (parseP (getP obj)).
Qed.

Lemma parseP_half elem :
  parseOperandOptimized elem = Returns (ExpressionConstant (VArray [VDouble (ratio 1 2)])) →
  parseP elem = Returns [ratio 1 2].
Proof. intros Hp. unfold parseP. rewrite Hp. vm_compute. reflexivity. Qed.

Lemma median_parse_validated flag obj :
  (∃ reason, AccumulatorMedianSpec_parse flag obj = Thrown BadValue reason ∧
             validatePercentileMethod flag (medianMethod obj) = Error BadValue reason) ∨
  (AccumulatorMedianSpec_parse flag obj = Returns obj ∧
   validatePercentileMethod flag (medianMethod obj) = OK).
Proof.
  unfold AccumulatorMedianSpec_parse.
  destruct (validatePercentileMethod_code flag (medianMethod obj)) as [Hok|[reason Herr]].
  - right. by rewrite Hok.
  - left. rewrite Herr. eauto.
Qed.

(** X3: $median is $percentile with the fractions {0.5}.  The parsers of
    $median return, or throw, what the parsers of $percentile do for the same
    method and a 'p' that is the constant array [0.5], and the constructor of
    [AccumulatorMedian] builds the accumulator that the constructor of
    [AccumulatorPercentile] builds for {0.5}, with the same limit, whatever
    fractions it is given. *)
Theorem median_is_percentile_of_half (flag : bool) (mobj : AccumulatorMedianSpec)
    (pobj : AccumulatorPercentileSpec) :
  getMethod pobj = medianMethod mobj →
  getInput pobj = medianInput mobj →
  parseOperandOptimized (getP pobj)
  = Returns (ExpressionConstant (VArray [VDouble (ratio 1 2)])) →
  (∀ pFirst,
     AccumulatorMedian_parsePercentileAndMethod flag mobj
     = parsePercentileAndMethod flag pFirst pobj) ∧
  AccumulatorMedian_parseExpression flag (MedianObject mobj)
  = parseExpression flag (ElemObject pobj) ∧
  AccumulatorMedian_parseArgs flag (MedianObject mobj)
  = (parsed ←! parseArgs flag (ElemObject pobj); Returns (parsed.1.1, parsed.2)) ∧
  (∀ {TDigest} {tdigest : PercentileAlgorithm TDigest} {params : Parameters}
     unused method maxMemoryUsageBytes,
     AccumulatorMedian_new (TDigest:=TDigest) unused method maxMemoryUsageBytes
     = AccumulatorPercentile_new [ratio 1 2] method maxMemoryUsageBytes).
Proof.
  intros Hmethod Hinput Hp. pose proof (parseP_half _ Hp) as HparseP.
  assert (AccumulatorPercentileSpec_parse flag pobj
          = (_ ←! uassertStatusOK (validatePercentileMethod flag (medianMethod mobj));
             Returns pobj)) as Hparse.
  { unfold AccumulatorPercentileSpec_parse. by rewrite Hmethod. }
  split; [|split; [|split]].
  - intros pFirst.
    unfold AccumulatorMedian_parsePercentileAndMethod, parsePercentileAndMethod.
    rewrite Hparse.
    destruct (median_parse_validated flag mobj) as [(reason & -> & ->)|[-> ->]]; [done|].
    cbn [bindT uassertStatusOK]. rewrite HparseP, Hmethod.
    destruct pFirst; cbn [bindT]; by destruct (methodNameToEnum (medianMethod mobj)).
  - unfold AccumulatorMedian_parseExpression, parseExpression. rewrite Hparse.
    destruct (median_parse_validated flag mobj) as [(reason & -> & ->)|[-> ->]]; [done|].
    cbn [bindT uassertStatusOK]. rewrite HparseP, Hmethod, Hinput. done.
  - unfold AccumulatorMedian_parseArgs, parseArgs. rewrite Hparse.
    destruct (median_parse_validated flag mobj) as [(reason & -> & ->)|[-> ->]]; [done|].
    cbn [bindT uassertStatusOK]. rewrite HparseP, Hmethod, Hinput.
    destruct (parseOperand (medianInput mobj)); [|done]. cbn [bindT].
    by destruct (methodNameToEnum (medianMethod mobj)).
  - intros TDigest tdigest params unused method maxMemoryUsageBytes.
    unfold AccumulatorMedian_new, AccumulatorPercentile_new. by destruct maxMemoryUsageBytes.
Qed.

(** ** Serialization *)

Lemma forallb_numeric_doubles (ps : list double) : forallb numeric (VDouble <$> ps) = true.
Proof. by induction ps. Qed.

Lemma coerceToDouble_doubles (ps : list double) : coerceToDouble <$> (VDouble <$> ps) = ps.
Proof. rewrite <-list_fmap_compose. apply list_fmap_id. Qed.

Lemma parseP_doubles elem (ps : list double) :
  parseOperandOptimized elem = Returns (ExpressionConstant (VArray (VDouble <$> ps))) →
  ps ≠ [] → Forall validFraction ps →
  parseP elem = Returns ps.
Proof.
  intros Hp Hne Hps.
  destruct (parseP_spec elem) as [(ps' & (vs & Hvs & _ & _ & ->) & ->)|[Hbad _]].
  - rewrite Hp in Hvs. injection Hvs as <-. by rewrite coerceToDouble_doubles.
  - destruct Hbad. exists ps, (VDouble <$> ps). split; [done|]. split.
    + by destruct ps.
    + split; [|by rewrite coerceToDouble_doubles].
      apply Forall_fmap. eapply Forall_impl; [done|].
      intros p [Hge Hle]. split; [done|]. split; by apply Qcle_not_lt.
Qed.

Lemma parseP_no_fraction elem :
  parseOperandOptimized elem = Returns (ExpressionConstant (VArray [])) →
  ∃ reason, parseP elem = Thrown (Location 7750301) reason.
Proof. intros Hp. unfold parseP. rewrite Hp. by eexists. Qed.

Lemma serialized_p_is_constant argument (ps : list double) method :
  parseOperandOptimized (elementOfField (serializeHelper argument ps method []) kPFieldName)
  = Returns (ExpressionConstant (VArray (VDouble <$> ps))).
Proof.
  unfold elementOfField, parseOperandOptimized. cbn [parseOperand optimize bindT].
  assert (getField (serializeHelper argument ps method []) kPFieldName
          = Some (VArray (VDouble <$> ps))) as -> by done.
  by rewrite forallb_numeric_doubles.
Qed.

Lemma parsePercentileAndMethod_returns flag pFirst spec ps method :
  validatePercentileMethod flag (getMethod spec) = OK →
  parseP (getP spec) = Returns ps →
  methodNameToEnum (getMethod spec) = Returns method →
  parsePercentileAndMethod flag pFirst spec = Returns (ps, method).
Proof.
  intros Hok Hps Hmethod. unfold parsePercentileAndMethod, AccumulatorPercentileSpec_parse.
  rewrite Hok. cbn [bindT uassertStatusOK]. rewrite Hps, Hmethod. by destruct pFirst.
Qed.

Section SerializationProperties.

Context {TDigest : Type}.
Implicit Types (this : AccumulatorPercentile TDigest).

(** X4: with the initializer that [parseArgs] makes, [serialize] passes its
    two invariants and gives the fields input, p and method in this order;
    read back by [parsePercentileAndMethod], the document gives the fractions
    and the method of the accumulator when the fractions are a non-empty list
    of fractions and the method is accepted in the state of the feature flag
    at that time.  Read back with the flag off, the document of an exact
    method is rejected, and an initializer that is not a nullish constant
    fails an invariant. *)
Theorem percentile_serialize_round_trip this (opName : string) (argument : Value)
    (flag pFirst : bool) :
  _percentiles this ≠ [] → Forall validFraction (_percentiles this) →
  ∃ doc spec,
    AccumulatorPercentile_serialize this opName parseArgs_initializer argument
      = Some (opName, doc) ∧
    fst <$> doc = [kInputFieldName; kPFieldName; kMethodFieldName] ∧
    specOfDocument doc = Some spec ∧
    (acceptedMethod flag (percentileMethodEnumToString (_method this)) →
     parsePercentileAndMethod flag pFirst spec
     = Returns (_percentiles this, _method this)) ∧
    (_method this ≠ kApproximateMethod →
     thrownCode (parsePercentileAndMethod false pFirst spec) = Some BadValue) ∧
    (∀ initializer,
       (∀ v, initializer = ExpressionConstant v → nullish v = false) →
       AccumulatorPercentile_serialize this opName initializer argument = None).
Proof.
  intros Hne Hps.
  set (doc := serializeHelper argument (_percentiles this) (_method this) []).
  exists doc, {| getInput := elementOfField doc kInputFieldName;
                 getP := elementOfField doc kPFieldName;
                 getMethod := percentileMethodEnumToString (_method this) |}.
  split; [done|]. split; [done|]. split; [done|].
  split; [|split].
  - intros Haccepted. apply parsePercentileAndMethod_returns.
    + by apply validatePercentileMethod_OK.
    + apply parseP_doubles; [|done..]. apply serialized_p_is_constant.
    + apply methodNameToEnum_of_name.
  - intros Hexact. unfold parsePercentileAndMethod, AccumulatorPercentileSpec_parse.
    cbn [getMethod]. by destruct (_method this).
  - intros initializer Hnot. unfold AccumulatorPercentile_serialize.
    destruct initializer as [v|]; [|done]. by rewrite (Hnot v).
Qed.

End SerializationProperties.

Section MedianSerialization.

Context {TDigest : Type}.
Implicit Types (this : AccumulatorPercentile TDigest).

(** X5: the document of $median has the fields input and method and no field
    for the fractions; read back by the parser of $median it gives the
    fractions {0.5} and the method of the accumulator, when the method is
    accepted in the state of the feature flag at that time. *)
Theorem median_serialize_round_trip this (opName : string) (argument : Value)
    (flag : bool) :
  ∃ doc spec,
    AccumulatorMedian_serialize this opName parseArgs_initializer argument
      = Some (opName, doc) ∧
    fst <$> doc = [kInputFieldName; kMethodFieldName] ∧
    getField doc kPFieldName = None ∧
    medianSpecOfDocument doc = Some spec ∧
    (acceptedMethod flag (percentileMethodEnumToString (_method this)) →
     AccumulatorMedian_parsePercentileAndMethod flag spec
     = Returns ([ratio 1 2], _method this)).
Proof.
  set (doc := AccumulatorMedian_serializeHelper argument (_percentiles this) (_method this) []).
  exists doc, {| medianInput := elementOfField doc kInputFieldName;
                 medianMethod := percentileMethodEnumToString (_method this) |}.
  split; [done|]. split; [done|]. split; [done|]. split; [done|].
  intros Haccepted.
  unfold AccumulatorMedian_parsePercentileAndMethod, AccumulatorMedianSpec_parse.
  cbn [medianMethod]. rewrite (proj2 (validatePercentileMethod_OK _ _) Haccepted).
  cbn [bindT uassertStatusOK medianMethod]. by rewrite methodNameToEnum_of_name.
Qed.

End MedianSerialization.

(** ** What the member functions keep *)

Section StateProperties.

Context {TDigest : Type} {tdigest : PercentileAlgorithm TDigest}.
Context {params : Parameters}.
Implicit Types (this : AccumulatorPercentile TDigest) (a : Algo TDigest).

Lemma processEach_cons this input merging calls :
  processEach this ((input, merging) :: calls)
  = match processInternal this input merging with
    | (this', OK) => processEach this' calls
    | (this', Error c r) => (this', Error c r)
    end.
Proof. done. Qed.

Lemma processEach_members this calls :
  _percentiles (processEach this calls).1 = _percentiles this ∧
  _method (processEach this calls).1 = _method this ∧
  maxAllowedMemoryUsageBytes (_memUsageTracker (processEach this calls).1)
    = maxAllowedMemoryUsageBytes (_memUsageTracker this).
Proof.
  revert this. induction calls as [|[input merging] calls IH]; intros this; [done|].
  rewrite processEach_cons.
  pose proof (processInternal_members this input merging) as (Hps & Hm & Hmax).
  destruct (processInternal this input merging) as [this' [|c r]]; simpl in *; [|done].
  destruct (IH this') as (-> & -> & ->). done.
Qed.

(** X6: no call of [processInternal], whether it ingests, merges, does
    nothing or throws, changes the fractions, the method or the memory limit
    of the accumulator; so a run of calls leaves them as they were. *)
Theorem run_keeps_configuration this (calls : list (Value * bool)) :
  _percentiles (processEach this calls).1 = _percentiles this ∧
  _method (processEach this calls).1 = _method this ∧
  maxAllowedMemoryUsageBytes (_memUsageTracker (processEach this calls).1)
    = maxAllowedMemoryUsageBytes (_memUsageTracker this).
Proof. apply processEach_members. Qed.

Lemma algoOfMethod_create method : algoOfMethod method (createPercentileAlgorithm method).
Proof. by destruct method. Qed.

Lemma algoOfMethod_incorporate method a input :
  algoOfMethod method a → algoOfMethod method (Algo_incorporate a input).
Proof. by destruct method, a. Qed.

Lemma algoOfMethod_combine method a partial :
  algoOfMethod method a → algoOfMethod method (Algo_combine a partial).
Proof. by destruct method, a. Qed.

Lemma processInternal_invariant this input merging :
  algoOfMethod (_method this) (_algo this) → trackerInSync this →
  algoOfMethod (_method (processInternal this input merging).1)
    (_algo (processInternal this input merging).1) ∧
  trackerInSync (processInternal this input merging).1.
Proof.
  intros Hclass Hsync. unfold processInternal.
  destruct merging; [|destruct (numeric input)]; cbn [negb]; [|..|done].
  - split; [by apply algoOfMethod_combine|done].
  - split; [by apply algoOfMethod_incorporate|done].
Qed.

Lemma processEach_invariant this calls :
  algoOfMethod (_method this) (_algo this) → trackerInSync this →
  algoOfMethod (_method (processEach this calls).1) (_algo (processEach this calls).1) ∧
  trackerInSync (processEach this calls).1.
Proof.
  revert this. induction calls as [|[input merging] calls IH]; intros this Hclass Hsync;
    [done|].
  rewrite processEach_cons.
  pose proof (processInternal_invariant this input merging Hclass Hsync) as [Hclass' Hsync'].
  destruct (processInternal this input merging) as [this' [|c r]]; simpl in *; [|done].
  by apply IH.
Qed.

(** X7: the constructor leaves an accumulator in which the object behind
    [_algo] is of the class of its method and the tracker holds
    [sizeof *this] plus the footprint of that object; every run of calls,
    returning or throwing, keeps both, and so does [reset], whatever the
    accumulator it is called on. *)
Theorem accumulator_invariant (ps : list double) (method : PercentileMethodEnum)
    (maxMemoryUsageBytes : option Z) (calls : list (Value * bool)) :
  let this := (processEach (AccumulatorPercentile_new ps method maxMemoryUsageBytes) calls).1 in
  (algoOfMethod (_method this) (_algo this) ∧ trackerInSync this) ∧
  (∀ any : AccumulatorPercentile TDigest,
     algoOfMethod (_method (reset any)) (_algo (reset any)) ∧ trackerInSync (reset any)).
Proof.
  intros this. split.
  - apply processEach_invariant; [apply algoOfMethod_create|done].
  - intros any. split; [apply algoOfMethod_create|done].
Qed.

Lemma processInternal_limit this input merging :
  match (processInternal this input merging).2 with
  | OK =>
      (processInternal this input merging).1 = this ∨
      withinMemoryLimit (_memUsageTracker (processInternal this input merging).1) = true
  | Error c _ =>
      c = ExceededMemoryLimit ∧
      withinMemoryLimit (_memUsageTracker (processInternal this input merging).1) = false
  end.
Proof.
  unfold processInternal.
  destruct merging; [|destruct (numeric input)]; cbn [negb]; [|..|by left];
    unfold trackMemory; cbn [fst snd _memUsageTracker];
    by destruct (withinMemoryLimit _) eqn:Hwithin; [right|].
Qed.

(** X8: a run of calls that returns leaves the usage within the limit,
    provided the run started within the limit; a run that throws throws
    [ExceededMemoryLimit] and leaves the usage above the limit. *)
Theorem run_status_tells_limit this (calls : list (Value * bool)) :
  match (processEach this calls).2 with
  | OK =>
      withinMemoryLimit (_memUsageTracker this) = true →
      withinMemoryLimit (_memUsageTracker (processEach this calls).1) = true
  | Error c _ =>
      c = ExceededMemoryLimit ∧
      withinMemoryLimit (_memUsageTracker (processEach this calls).1) = false
  end.
Proof.
  revert this. induction calls as [|[input merging] calls IH]; intros this; [by simpl|].
  rewrite processEach_cons.
  pose proof (processInternal_limit this input merging) as Hcall.
  destruct (processInternal this input merging) as [this' [|c r]]; simpl in Hcall |- *;
    [|done].
  specialize (IH this'). destruct (processEach this' calls).2; [|done].
  intros Hwithin. apply IH. destruct Hcall as [->|Hcall]; done.
Qed.

(** X9: [reset] after any run of calls, returning or throwing, gives back the
    accumulator that the constructor made: no sample, the usage of the empty
    algorithm, and the fractions, the method and the limit of before. *)
Theorem reset_restores_fresh (ps : list double) (method : PercentileMethodEnum)
    (maxMemoryUsageBytes : option Z) (calls : list (Value * bool)) :
  reset (processEach (AccumulatorPercentile_new ps method maxMemoryUsageBytes) calls).1
  = AccumulatorPercentile_new ps method maxMemoryUsageBytes.
Proof.
  pose proof (processEach_members
    (AccumulatorPercentile_new ps method maxMemoryUsageBytes) calls) as (Hps & Hm & Hmax).
  unfold reset, MemoryUsageTracker_set. rewrite Hps, Hm, Hmax. done.
Qed.

End StateProperties.

Section MedianValue.

Context {TDigest : Type} {tdigest : PercentileAlgorithm TDigest}.
Context {laws : PercentileAlgorithmLaws TDigest}.
Context {params : Parameters}.
Implicit Types (this : AccumulatorPercentile TDigest).

(** X10: for an accumulator with one fraction, as the accumulator of $median
    is, the non-merge finalize of $median does not throw, and its value is
    the one entry of the array that the non-merge finalize of $percentile
    gives for the same accumulator, whatever has been ingested or merged. *)
Theorem median_value_is_percentile_entry this (p : double) :
  _percentiles this = [p] →
  ∃ v, AccumulatorMedian_getValue this false = Returns v ∧
       getValue this false = VArray [v].
Proof.
  intros Hps. unfold AccumulatorMedian_getValue, getValue. rewrite Hps.
  destruct (Algo_computePercentiles_nil_or_length (_algo this) [p]) as [Hnil|Hlen].
  - rewrite Hnil. by exists VNull.
  - destruct (Algo_computePercentiles (_algo this) [p]) as [|x [|y rest]]; try done.
    by exists (VDouble x).
Qed.

End MedianValue.

(** * The count command of mongos *)

Section ClusterCountCmdProperties.

Import ClusterCountCmd.

Lemma wrap64_representable z : representable z → wrap64 z = z.
Proof.
  unfold representable, wrap64, INT64_MIN, INT64_MAX. intros Hz.
  rewrite Z.mod_small; lia.
Qed.

Lemma wrap64_range z : representable (wrap64 z).
Proof.
  unfold representable, wrap64, INT64_MIN, INT64_MAX.
  pose proof (Z.mod_pos_bound (z + 2 ^ 63) (2 ^ 64)). lia.
Qed.

(** ** The loop over the responses *)

Lemma sumOf_cons n counts : sumOf (n :: counts) = n + sumOf counts.
Proof. done. Qed.

Lemma sumOf_nonneg counts : Forall (λ n, 0 ≤ n) counts → 0 ≤ sumOf counts.
Proof. induction 1 as [|n counts Hn _ IH]; [done|]. rewrite sumOf_cons. lia. Qed.

Lemma sumShardCounts_healthy responses shards total :
  Forall healthy responses →
  Forall (λ response, 0 ≤ shardCount response) responses →
  0 ≤ total → total + sumOf (shardCount <$> responses) ≤ INT64_MAX →
  sumShardCounts responses shards total
  = Passed (shards ++ ((λ response, (shardId response, shardCount response)) <$> responses),
            total + sumOf (shardCount <$> responses)).
Proof.
  intros Hhealthy. revert shards total.
  induction Hhealthy as [|response responses [Hsw Hcmd] _ IH];
    intros shards total Hcounts Htotal Hsum.
  { cbn. by rewrite app_nil_r, Z.add_0_r. }
  apply Forall_cons in Hcounts as [Hcount Hcounts].
  assert (0 ≤ sumOf (shardCount <$> responses)) as Hrest.
  { apply sumOf_nonneg. by apply Forall_fmap. }
  rewrite !fmap_cons, sumOf_cons in *. cbn [sumShardCounts]. rewrite Hsw, Hcmd.
  rewrite wrap64_representable by (unfold representable, INT64_MIN, INT64_MAX in *; lia).
  rewrite IH by (done || lia). rewrite <-app_assoc. f_equal. f_equal. lia.
Qed.

Lemma sumShardCounts_failure before failed after shards total :
  Forall healthy before → ¬ healthy failed →
  sumShardCounts (before ++ failed :: after) shards total
  = ShardFailed (failureStatus failed) [Text "failed on: "; Text (shardId failed)].
Proof.
  intros Hhealthy Hfailed. revert shards total.
  induction Hhealthy as [|response responses [Hsw Hcmd] _ IH]; intros shards total.
  - cbn [app sumShardCounts]. unfold healthy, failureStatus in *.
    destruct (swResponseStatus failed); [|done].
    destruct (commandResultStatus failed); [|done]. by destruct Hfailed.
  - cbn [app sumShardCounts]. rewrite Hsw, Hcmd. apply IH.
Qed.

(** X13: when every response arrived with a command result that is OK (and
    the counts are not negative and their sum fits [long long]), the loop
    gives the sub-total of every shard, in the order of the responses, and
    the sum of the counts.  Otherwise it throws for the first response that
    failed, with the context naming that shard and with the status of the
    response in preference to the status in its command result; what the
    shards before it counted is not returned. *)
Theorem sumShardCounts_total_or_first_failure (responses : list Response) :
  (Forall healthy responses →
   Forall (λ response, 0 ≤ shardCount response) responses →
   sumOf (shardCount <$> responses) ≤ INT64_MAX →
   sumShardCounts responses [] 0
   = Passed ((λ response, (shardId response, shardCount response)) <$> responses,
             sumOf (shardCount <$> responses))) ∧
  (∀ before failed after,
     responses = before ++ failed :: after →
     Forall healthy before → ¬ healthy failed →
     sumShardCounts responses [] 0
     = ShardFailed (failureStatus failed) [Text "failed on: "; Text (shardId failed)]).
Proof.
  split.
  - intros Hhealthy Hcounts Hsum. by rewrite sumShardCounts_healthy.
  - intros before failed after -> Hhealthy Hfailed. by apply sumShardCounts_failure.
Qed.

(** ** The skip and the limit *)

Lemma sumOf_capped (cap : Z) (counts : list Z) :
  0 ≤ cap → Forall (λ n, 0 ≤ n) counts →
  0 ≤ sumOf (Z.min cap <$> counts) ≤ sumOf counts ∧
  (sumOf (Z.min cap <$> counts) = sumOf counts ∨ cap ≤ sumOf (Z.min cap <$> counts)).
Proof.
  intros Hcap Hcounts. induction Hcounts as [|n counts Hn _ IH].
  { cbn. lia. }
  rewrite fmap_cons, !sumOf_cons.
  generalize dependent (sumOf (Z.min cap <$> counts)). intros capped.
  generalize (sumOf counts). intros uncapped. lia.
Qed.

Context {bson : CommandObject}.

(** [safeNumberLong] returns a [long long]. *)
Hypothesis safeNumberLong_range : ∀ elt, representable (safeNumberLong elt).

(** The count after the skip and the limit, without the wrap-around. *)
Lemma applySkipLimit_formula (num : Z) (cmd : BSONObj) :
  0 ≤ num ≤ INT64_MAX →
  (isNumber (getCmdField cmd "skip") = true → 0 ≤ safeNumberLong (getCmdField cmd "skip")) →
  (isNumber (getCmdField cmd "limit") = true →
   safeNumberLong (getCmdField cmd "limit") ≠ INT64_MIN) →
  applySkipLimit num cmd
  = let skipped :=
      if isNumber (getCmdField cmd "skip")
      then Z.max 0 (num - safeNumberLong (getCmdField cmd "skip"))
      else num in
    if isNumber (getCmdField cmd "limit")
       && bool_decide (safeNumberLong (getCmdField cmd "limit") ≠ 0)
    then Z.min skipped (Z.abs (safeNumberLong (getCmdField cmd "limit")))
    else skipped.
Proof.
  intros Hnum Hskip Hlimit. unfold applySkipLimit. cbv zeta.
  pose proof (safeNumberLong_range (getCmdField cmd "skip")) as Hs.
  pose proof (safeNumberLong_range (getCmdField cmd "limit")) as Hl.
  set (s := getCmdField cmd "skip") in *. set (l := getCmdField cmd "limit") in *.
  unfold representable, INT64_MIN, INT64_MAX in *.
  assert ((if isNumber s
           then if bool_decide (wrap64 (num - safeNumberLong s) < 0) then 0
                else wrap64 (num - safeNumberLong s)
           else num)
          = (if isNumber s then Z.max 0 (num - safeNumberLong s) else num)) as ->.
  { destruct (isNumber s); [|done]. specialize (Hskip eq_refl).
    rewrite wrap64_representable by (unfold representable, INT64_MIN, INT64_MAX; lia).
    case_bool_decide; lia. }
  set (skipped := if isNumber s then _ else _).
  assert (0 ≤ skipped ≤ num) as Hskipped.
  { unfold skipped. destruct (isNumber s); [specialize (Hskip eq_refl)|]; lia. }
  destruct (isNumber l); [|done]. specialize (Hlimit eq_refl). cbn [andb].
  assert ((if bool_decide (safeNumberLong l < 0) then wrap64 (- safeNumberLong l)
           else safeNumberLong l) = Z.abs (safeNumberLong l)) as ->.
  { case_bool_decide; [|lia].
    rewrite wrap64_representable by (unfold representable, INT64_MIN, INT64_MAX; lia). lia. }
  repeat case_bool_decide; cbn [andb]; lia.
Qed.

(** X11: for a total that is not negative, a skip that is not negative and a
    limit that is not the least [long long], the count is the total less the
    skip, not below zero, and then not above the absolute value of the limit
    unless the limit is zero or is not a number: the sign of the limit is of
    no account and a limit of zero is no limit. *)
Theorem applySkipLimit_closed_form (num : Z) (cmd : BSONObj) :
  0 ≤ num ≤ INT64_MAX →
  (isNumber (getCmdField cmd "skip") = true → 0 ≤ safeNumberLong (getCmdField cmd "skip")) →
  (isNumber (getCmdField cmd "limit") = true →
   safeNumberLong (getCmdField cmd "limit") ≠ INT64_MIN) →
  applySkipLimit num cmd
  = let skipped :=
      if isNumber (getCmdField cmd "skip")
      then Z.max 0 (num - safeNumberLong (getCmdField cmd "skip"))
      else num in
    if isNumber (getCmdField cmd "limit")
       && bool_decide (safeNumberLong (getCmdField cmd "limit") ≠ 0)
    then Z.min skipped (Z.abs (safeNumberLong (getCmdField cmd "limit")))
    else skipped.
Proof. apply applySkipLimit_formula. Qed.

(** X12: under the same conditions the count is never negative and never
    above the total, it is not above the absolute value of a limit that is
    not zero, and a larger total never gives a smaller count. *)
Theorem applySkipLimit_bounds (num num' : Z) (cmd : BSONObj) :
  0 ≤ num ≤ num' → num' ≤ INT64_MAX →
  (isNumber (getCmdField cmd "skip") = true → 0 ≤ safeNumberLong (getCmdField cmd "skip")) →
  (isNumber (getCmdField cmd "limit") = true →
   safeNumberLong (getCmdField cmd "limit") ≠ INT64_MIN) →
  0 ≤ applySkipLimit num cmd ≤ num ∧
  applySkipLimit num cmd ≤ applySkipLimit num' cmd ∧
  (isNumber (getCmdField cmd "limit") = true →
   safeNumberLong (getCmdField cmd "limit") ≠ 0 →
   applySkipLimit num cmd ≤ Z.abs (safeNumberLong (getCmdField cmd "limit"))).
Proof.
  intros Hnum Hnum' Hskip Hlimit.
  rewrite !applySkipLimit_formula by (done || lia). cbv zeta.
  destruct (isNumber (getCmdField cmd "skip")); [specialize (Hskip eq_refl)|];
    (destruct (isNumber (getCmdField cmd "limit")); [specialize (Hlimit eq_refl)|]);
    cbn [andb]; repeat case_bool_decide; (repeat split; try intros; try done; lia).
Qed.

(** X14: sending the shards the limit plus the skip, and no skip, does not
    change the count.  For a limit above zero and a skip that is not
    negative, either the sum of the two does not fit [long long] and the
    command throws Overflow, or, when every shard answers with its count
    capped at that sum, the count that [errmsgRun] returns is the one that
    the skip and the limit give for the uncapped counts. *)
Theorem shard_limit_keeps_count (cmd : BSONObj) (limit skip : Z) (shards : list (string * Z)) :
  isNumber (getCmdField cmd "limit") = true → safeNumberLong (getCmdField cmd "limit") = limit →
  isNumber (getCmdField cmd "skip") = true → safeNumberLong (getCmdField cmd "skip") = skip →
  0 < limit → 0 ≤ skip →
  Forall (λ shard, 0 ≤ shard.2) shards → sumOf (snd <$> shards) ≤ INT64_MAX →
  (∃ reason, limitAndSkipForShards (Some limit) (Some skip) = Overflow reason ∧
             INT64_MAX < limit + skip) ∨
  (limitAndSkipForShards (Some limit) (Some skip) = Passed (Some (limit + skip), None) ∧
   countFromResponses
     ((λ shard, {| shardId := shard.1; swResponseStatus := OK; commandResultStatus := OK;
                   shardCount := Z.min (limit + skip) shard.2 |}) <$> shards) cmd
   = Passed ((λ shard, (shard.1, Z.min (limit + skip) shard.2)) <$> shards,
             Z.min limit (Z.max 0 (sumOf (snd <$> shards) - skip))) ∧
   applySkipLimit (sumOf (snd <$> shards)) cmd
   = Z.min limit (Z.max 0 (sumOf (snd <$> shards) - skip))).
Proof.
  intros Hlnum Hl Hsnum Hs Hlimit Hskip Hcounts Hsum.
  pose proof (safeNumberLong_range (getCmdField cmd "limit")) as Hlrange.
  pose proof (safeNumberLong_range (getCmdField cmd "skip")) as Hsrange.
  rewrite Hl in Hlrange. rewrite Hs in Hsrange.
  unfold representable, INT64_MIN, INT64_MAX in *.
  assert (Forall (λ n, 0 ≤ n) (snd <$> shards)) as Hcounts'.
  { apply Forall_fmap. by eapply Forall_impl. }
  destruct (sumOf_capped (limit + skip) (snd <$> shards)) as [Hcapped Hcases]; [lia|done|].
  assert (∀ num, 0 ≤ num ≤ 2 ^ 63 - 1 →
                 applySkipLimit num cmd = Z.min limit (Z.max 0 (num - skip))) as Hformula.
  { intros num Hnum. rewrite applySkipLimit_formula.
    - cbv zeta. rewrite Hlnum, Hsnum, Hl, Hs. rewrite bool_decide_eq_true_2 by lia.
      cbn [andb]. lia.
    - unfold INT64_MAX. lia.
    - rewrite Hs. lia.
    - rewrite Hl. unfold INT64_MIN. lia. }
  unfold limitAndSkipForShards, overflow_add.
  rewrite bool_decide_eq_true_2 by lia.
  destruct (decide (representable (limit + skip))) as [Hfits|Hnot].
  - right. rewrite (bool_decide_eq_true_2 _ Hfits). cbn [negb].
    rewrite wrap64_representable by done. split; [done|]. split; [|apply Hformula; lia].
    set (responses := (λ shard, {| shardId := shard.1; swResponseStatus := OK;
                                   commandResultStatus := OK;
                                   shardCount := Z.min (limit + skip) shard.2 |}) <$> shards).
    assert (shardCount <$> responses = Z.min (limit + skip) <$> (snd <$> shards)) as Hcapped'.
    { unfold responses. by rewrite <-!list_fmap_compose. }
    unfold countFromResponses. rewrite sumShardCounts_healthy.
    + rewrite Hcapped', Z.add_0_l. cbn [app]. f_equal. f_equal.
      * unfold responses. by rewrite <-list_fmap_compose.
      * rewrite Hformula by lia. destruct Hcases as [->|Hcap]; lia.
    + unfold responses. apply Forall_fmap, Forall_true. by intros shard.
    + unfold responses. apply Forall_fmap. eapply Forall_impl; [done|].
      intros shard Hshard. cbn [shardCount]. apply Z.min_glb; [lia|exact Hshard].
    + done.
    + rewrite Hcapped'. unfold INT64_MAX. lia.
  - left. rewrite (bool_decide_eq_false_2 _ Hnot). cbn [negb]. eexists. split; [done|].
    unfold representable, INT64_MIN, INT64_MAX in Hnot. lia.
Qed.

End ClusterCountCmdProperties.

(** * The options of mongos *)

Section MongosOptionsProperties.

Import MongosOptions.

Context {environment : Environment}.

Lemma canonicalizeMongosOptions_OK (params params' : Env) :
  setSpec → removeSpec →
  canonicalizeMongosOptions params = (OK, params') →
  let canonical := (canonicalizeServerOptions params).2 in
  count params' "noscripting" = 0%nat ∧
  (count canonical "noscripting" ≠ 0%nat →
   count params' "security.javascriptEnabled" ≠ 0%nat ∧
   getBool params' "security.javascriptEnabled" = negb (getBool canonical "noscripting")) ∧
  (count canonical "noscripting" = 0%nat → params' = canonical) ∧
  (∀ key, key ≠ "noscripting" → key ≠ "security.javascriptEnabled" →
     count params' key = count canonical key ∧ getBool params' key = getBool canonical key).
Proof.
  intros Hset Hremove. unfold canonicalizeMongosOptions.
  destruct (canonicalizeServerOptions params) as [[|c r] canonical]; [|done]. cbn [snd].
  case_bool_decide as Hnoscripting.
  2:{ intros [= <-]. split; [by destruct (decide (count canonical "noscripting" = 0%nat))|]. done. }
  destruct (set canonical _ _) as [[|c r] params1] eqn:Hset1; [|done].
  destruct (remove params1 _) as [[|c r] params2] eqn:Hremove1; [|done].
  intros [= <-].
  destruct (Hset _ _ _ _ Hset1) as (Hthere & Hvalue & Hothers).
  destruct (Hremove _ _ _ Hremove1) as (Hgone & Hothers').
  split; [done|]. split; [|split; [done|]].
  - intros _. destruct (Hothers' "security.javascriptEnabled") as [-> ->]; done.
  - intros key Hkey Hkey'.
    destruct (Hothers' key Hkey) as [-> ->]. by apply Hothers.
Qed.

(** X15: when [canonicalizeMongosOptions] returns OK, the key "noscripting"
    is gone; if the server canonicalization left it set, the key
    "security.javascriptEnabled" is set to its negation, whatever it held;
    if it did not, the environment is the one of the server canonicalization;
    and no other key is touched.  ([set] and [remove] are taken to do, when
    they return OK, what their names say.) *)
Theorem canonicalize_turns_noscripting_into_javascriptEnabled (params params' : Env) :
  setSpec → removeSpec →
  canonicalizeMongosOptions params = (OK, params') →
  let canonical := (canonicalizeServerOptions params).2 in
  count params' "noscripting" = 0%nat ∧
  (count canonical "noscripting" ≠ 0%nat →
   count params' "security.javascriptEnabled" ≠ 0%nat ∧
   getBool params' "security.javascriptEnabled" = negb (getBool canonical "noscripting")) ∧
  (count canonical "noscripting" = 0%nat → params' = canonical) ∧
  (∀ key, key ≠ "noscripting" → key ≠ "security.javascriptEnabled" →
     count params' key = count canonical key ∧ getBool params' key = getBool canonical key).
Proof. apply canonicalizeMongosOptions_OK. Qed.

(** X16: [storeMongosOptions] returns OK exactly when [storeServerOptions]
    does and "sharding.configDB" is there; without that key it returns
    BadValue "error: no args for --configdb", and by then it has already
    stored "security.javascriptEnabled" in [scriptingEnabled]; the two
    back-compat flags are stored only when it returns OK, and nothing is
    stored when [storeServerOptions] fails. *)
Theorem storeMongosOptions_outcome (params : Env) (globals : MongosGlobalParams) :
  let status := (storeMongosOptions params globals).1 in
  let globals' := (storeMongosOptions params globals).2 in
  (status = OK ↔
   storeServerOptions params = OK ∧ count params "sharding.configDB" ≠ 0%nat) ∧
  (storeServerOptions params ≠ OK →
   status = storeServerOptions params ∧ globals' = globals) ∧
  (storeServerOptions params = OK →
   (count params "sharding.configDB" = 0%nat →
    status = Error BadValue [Text "error: no args for --configdb"]) ∧
   scriptingEnabled globals'
   = (if bool_decide (count params "security.javascriptEnabled" ≠ 0%nat)
      then getBool params "security.javascriptEnabled"
      else scriptingEnabled globals)) ∧
  (status = OK →
   upgradeBackCompat globals' = bool_decide (count params "upgradeBackCompat" ≠ 0%nat) ∧
   downgradeBackCompat globals'
   = bool_decide (count params "downgradeBackCompat" ≠ 0%nat)) ∧
  (status ≠ OK →
   upgradeBackCompat globals' = upgradeBackCompat globals ∧
   downgradeBackCompat globals' = downgradeBackCompat globals).
Proof.
  unfold storeMongosOptions.
  destruct (storeServerOptions params) as [|c r] eqn:Hserver.
  - repeat case_bool_decide; cbn [fst snd]; repeat split; try done; intros; try done;
      by intuition.
  - cbn [fst snd]. repeat split; try done; by intros [? ?].
Qed.

(** X17: a "noscripting" switch, which comes from the command line, wins
    over "security.javascriptEnabled", which comes from the config file:
    after [canonicalizeMongosOptions] and [storeMongosOptions],
    [scriptingEnabled] is the negation of the switch. *)
Theorem noscripting_overrides_config_file (params params' : Env)
    (globals : MongosGlobalParams) :
  setSpec → removeSpec →
  canonicalizeMongosOptions params = (OK, params') →
  count (canonicalizeServerOptions params).2 "noscripting" ≠ 0%nat →
  storeServerOptions params' = OK →
  scriptingEnabled (storeMongosOptions params' globals).2
  = negb (getBool (canonicalizeServerOptions params).2 "noscripting").
Proof.
  intros Hset Hremove Hcanonical Hnoscripting Hstore.
  destruct (canonicalizeMongosOptions_OK _ _ Hset Hremove Hcanonical)
    as (_ & Hjs & _).
  destruct (Hjs Hnoscripting) as [Hthere Hvalue].
  unfold storeMongosOptions. rewrite Hstore.
  rewrite (bool_decide_eq_true_2 _ Hthere). by case_bool_decide.
Qed.

End MongosOptionsProperties.

(** * The error information of ShardInvalidatedForTargeting *)

Section ShardInvalidatedProperties.

Import ShardInvalidatedForTargetingInfo.

Context {util : NamespaceStringUtil}.

Lemma getField_addField (doc : Document) (name name' : string) (v : Value) :
  getField (addField doc name v) name'
  = match getField doc name' with
    | Some found => Some found
    | None => if bool_decide (name = name') then Some v else None
    end.
Proof.
  unfold addField. induction doc as [|[name0 v0] doc IH]; cbn [app getField]; [done|].
  by destruct (bool_decide (name0 = name')).
Qed.

(** X18: [parseFromCommandError] gives back the information that
    [serialize] appended to a builder, when the builder had no field "nss"
    and the namespace string survives its own serialization; a builder that
    already has a string field "nss" makes the parser return the namespace of
    that field instead, and an object with no field "nss" makes it throw. *)
Theorem shard_invalidated_round_trip (info : t) (bob : Document) :
  nssDeserialize (nssSerialize (_nss info)) = _nss info →
  (getField bob kNss = None → parseFromCommandError (serialize info bob) = Some info) ∧
  (∀ earlier, getField bob kNss = Some (VString earlier) →
     parseFromCommandError (serialize info bob) = Some (Info (nssDeserialize earlier))) ∧
  (getField bob kNss = None → parseFromCommandError bob = None).
Proof.
  intros Hnss. unfold parseFromCommandError, serialize. rewrite getField_addField.
  change "nss" with kNss. split; [|split].
  - intros ->. rewrite bool_decide_eq_true_2 by done. destruct info as [nss]. cbn in *.
    by rewrite Hnss.
  - by intros earlier ->.
  - by intros ->.
Qed.

End ShardInvalidatedProperties.

(** ** The further statements at concrete inputs *)

Lemma median_is_percentile_of_half_witness :
  let pobj := specWithMethod kContinuous in
  let mobj := {| medianInput := getInput pobj; medianMethod := kContinuous |} in
  getMethod pobj = medianMethod mobj ∧
  getInput pobj = medianInput mobj ∧
  parseOperandOptimized (getP pobj)
  = Returns (ExpressionConstant (VArray [VDouble (ratio 1 2)])) ∧
  AccumulatorMedian_parseExpression true (MedianObject mobj)
  = parseExpression true (ElemObject pobj) ∧
  AccumulatorMedian_parseExpression false (MedianObject mobj)
  = parseExpression false (ElemObject pobj).
Proof.
  intros pobj mobj.
  assert (getMethod pobj = medianMethod mobj) as Hmethod by reflexivity.
  assert (getInput pobj = medianInput mobj) as Hinput by reflexivity.
  assert (parseOperandOptimized (getP pobj)
          = Returns (ExpressionConstant (VArray [VDouble (ratio 1 2)]))) as Hp
    by reflexivity.
  split; [exact Hmethod|]. split; [exact Hinput|]. split; [exact Hp|]. split.
  - exact (proj1 (proj2 (median_is_percentile_of_half true mobj pobj Hmethod Hinput Hp))).
  - exact (proj1 (proj2 (median_is_percentile_of_half false mobj pobj Hmethod Hinput Hp))).
Defined.

Lemma percentile_serialize_round_trip_witness :
  let this : AccumulatorPercentile UncompressedSketch.t :=
    create [ratio 1 2; ratio 9 10] kContinuousMethod in
  _percentiles this ≠ [] ∧ Forall validFraction (_percentiles this) ∧
  acceptedMethod true (percentileMethodEnumToString (_method this)) ∧
  ∃ doc spec,
    AccumulatorPercentile_serialize this "$percentile" parseArgs_initializer (VString "$x")
      = Some ("$percentile", doc) ∧
    specOfDocument doc = Some spec ∧
    parsePercentileAndMethod true true spec
      = Returns ([ratio 1 2; ratio 9 10], kContinuousMethod).
Proof.
  intros this.
  assert (_percentiles this ≠ []) as Hne by discriminate.
  assert (Forall validFraction (_percentiles this)) as Hps
    by (repeat constructor; vm_compute; discriminate).
  assert (acceptedMethod true (percentileMethodEnumToString (_method this))) as Haccepted
    by (apply validatePercentileMethod_OK; reflexivity).
  split; [exact Hne|]. split; [exact Hps|]. split; [exact Haccepted|].
  destruct (percentile_serialize_round_trip this "$percentile" (VString "$x") true true
              Hne Hps) as (doc & spec & Hdoc & _ & Hspec & Hback & _).
  exists doc, spec. split; [exact Hdoc|]. split; [exact Hspec|]. exact (Hback Haccepted).
Defined.

Lemma median_value_is_percentile_entry_witness :
  let this : AccumulatorPercentile UncompressedSketch.t :=
    (processAll (AccumulatorMedian_create [] kDiscreteMethod) [VInt 5; VInt 10; VInt 27]
       false).1 in
  PercentileAlgorithmLaws UncompressedSketch.t ∧
  _percentiles this = [ratio 1 2] ∧
  ∃ v, AccumulatorMedian_getValue this false = Returns v ∧
       getValue this false = VArray [v].
Proof.
  intros this. split; [exact UncompressedSketch_laws|].
  assert (_percentiles this = [ratio 1 2]) as Hps by reflexivity.
  split; [exact Hps|].
  exact (median_value_is_percentile_entry this (ratio 1 2) Hps).
Defined.

Lemma testSafeNumberLong_range (elt : option Z) :
  ClusterCountCmd.representable (ClusterCountCmd.testSafeNumberLong elt).
Proof.
  unfold ClusterCountCmd.representable, ClusterCountCmd.testSafeNumberLong,
    ClusterCountCmd.INT64_MIN, ClusterCountCmd.INT64_MAX.
  destruct elt; lia.
Qed.

Section ClusterCountCmdWitnesses.

Import ClusterCountCmd.

#[local] Existing Instance testCommandObject.

Lemma applySkipLimit_closed_form_witness :
  let cmd : TestCmd := [("skip", 3); ("limit", -5)] in
  (∀ elt, representable (safeNumberLong elt)) ∧
  0 ≤ 10 ≤ INT64_MAX ∧
  (isNumber (getCmdField cmd "skip") = true → 0 ≤ safeNumberLong (getCmdField cmd "skip")) ∧
  (isNumber (getCmdField cmd "limit") = true →
   safeNumberLong (getCmdField cmd "limit") ≠ INT64_MIN) ∧
  applySkipLimit 10 cmd = 5.
Proof.
  intros cmd.
  assert (0 ≤ 10 ≤ INT64_MAX) as Hnum by (vm_compute; split; discriminate).
  assert (isNumber (getCmdField cmd "skip") = true →
          0 ≤ safeNumberLong (getCmdField cmd "skip")) as Hskip
    by (intros _; vm_compute; discriminate).
  assert (isNumber (getCmdField cmd "limit") = true →
          safeNumberLong (getCmdField cmd "limit") ≠ INT64_MIN) as Hlimit
    by (intros _; vm_compute; discriminate).
  split; [exact testSafeNumberLong_range|]. split; [exact Hnum|].
  split; [exact Hskip|]. split; [exact Hlimit|].
  rewrite (applySkipLimit_closed_form (bson:=testCommandObject) testSafeNumberLong_range 10 cmd Hnum Hskip Hlimit).
  reflexivity.
Defined.

Lemma applySkipLimit_bounds_witness :
  let cmd : TestCmd := [("skip", 3); ("limit", -5)] in
  (∀ elt, representable (safeNumberLong elt)) ∧
  0 ≤ 4 ≤ 10 ∧ 10 ≤ INT64_MAX ∧
  (isNumber (getCmdField cmd "skip") = true → 0 ≤ safeNumberLong (getCmdField cmd "skip")) ∧
  (isNumber (getCmdField cmd "limit") = true →
   safeNumberLong (getCmdField cmd "limit") ≠ INT64_MIN) ∧
  0 ≤ applySkipLimit 4 cmd ≤ 4 ∧
  applySkipLimit 4 cmd ≤ applySkipLimit 10 cmd.
Proof.
  intros cmd.
  assert (0 ≤ 4 ≤ 10) as Hnum by lia.
  assert (10 ≤ INT64_MAX) as Hnum' by (vm_compute; discriminate).
  assert (isNumber (getCmdField cmd "skip") = true →
          0 ≤ safeNumberLong (getCmdField cmd "skip")) as Hskip
    by (intros _; vm_compute; discriminate).
  assert (isNumber (getCmdField cmd "limit") = true →
          safeNumberLong (getCmdField cmd "limit") ≠ INT64_MIN) as Hlimit
    by (intros _; vm_compute; discriminate).
  split; [exact testSafeNumberLong_range|]. split; [exact Hnum|]. split; [exact Hnum'|].
  split; [exact Hskip|]. split; [exact Hlimit|].
  destruct (applySkipLimit_bounds (bson:=testCommandObject) testSafeNumberLong_range 4 10 cmd Hnum Hnum' Hskip Hlimit)
    as (Hrange & Hmono & _).
  split; [exact Hrange|exact Hmono].
Defined.

Lemma shard_limit_keeps_count_witness :
  let cmd : TestCmd := [("limit", 5); ("skip", 3)] in
  let shards := [("shard0", 7); ("shard1", 2)] in
  (∀ elt, representable (safeNumberLong elt)) ∧
  (isNumber (getCmdField cmd "limit") = true ∧ safeNumberLong (getCmdField cmd "limit") = 5) ∧
  (isNumber (getCmdField cmd "skip") = true ∧ safeNumberLong (getCmdField cmd "skip") = 3) ∧
  0 < 5 ∧ 0 ≤ 3 ∧
  Forall (λ shard : string * Z, 0 ≤ shard.2) shards ∧
  sumOf (snd <$> shards) ≤ INT64_MAX ∧
  limitAndSkipForShards (Some 5) (Some 3) = Passed (Some (5 + 3), None) ∧
  applySkipLimit (sumOf (snd <$> shards)) cmd
  = Z.min 5 (Z.max 0 (sumOf (snd <$> shards) - 3)).
Proof.
  intros cmd shards.
  assert (Forall (λ shard : string * Z, 0 ≤ shard.2) shards) as Hshards
    by (repeat constructor; vm_compute; discriminate).
  assert (sumOf (snd <$> shards) ≤ INT64_MAX) as Hsum by (vm_compute; discriminate).
  split; [exact testSafeNumberLong_range|].
  split; [split; reflexivity|]. split; [split; reflexivity|].
  split; [lia|]. split; [lia|]. split; [exact Hshards|]. split; [exact Hsum|].
  destruct (shard_limit_keeps_count (bson:=testCommandObject) testSafeNumberLong_range cmd 5 3 shards
              eq_refl eq_refl eq_refl eq_refl ltac:(lia) ltac:(lia) Hshards Hsum)
    as [(reason & _ & Habsurd)|(Hsent & _ & Hcount)].
  - exfalso. vm_compute in Habsurd. discriminate.
  - split; [exact Hsent|exact Hcount].
Defined.

End ClusterCountCmdWitnesses.

Section MongosOptionsWitnesses.

Import MongosOptions.

#[local] Existing Instance testEnvironment.

Lemma testEnvironment_setSpec : setSpec.
Proof.
  intros params key value params' [= <-]. cbn.
  rewrite lookup_insert_eq. split; [done|]. split; [done|].
  intros other Hother. by rewrite lookup_insert_ne.
Qed.

Lemma testEnvironment_removeSpec : removeSpec.
Proof.
  intros params key params' [= <-]. cbn.
  rewrite lookup_delete_eq. split; [done|].
  intros other Hother. by rewrite lookup_delete_ne.
Qed.

Lemma canonicalize_turns_noscripting_into_javascriptEnabled_witness :
  let params : Env :=
    <["noscripting" := true]> (<["security.javascriptEnabled" := true]> ∅) in
  let params' := (canonicalizeMongosOptions params).2 in
  setSpec ∧ removeSpec ∧
  canonicalizeMongosOptions params = (OK, params') ∧
  count (canonicalizeServerOptions params).2 "noscripting" ≠ 0%nat ∧
  count params' "noscripting" = 0%nat ∧
  getBool params' "security.javascriptEnabled"
  = negb (getBool (canonicalizeServerOptions params).2 "noscripting").
Proof.
  intros params params'.
  assert (canonicalizeMongosOptions params = (OK, params')) as Hcanonical
    by (vm_compute; reflexivity).
  assert (count (canonicalizeServerOptions params).2 "noscripting" ≠ 0%nat) as Hnoscripting
    by (vm_compute; discriminate).
  split; [exact testEnvironment_setSpec|]. split; [exact testEnvironment_removeSpec|].
  split; [exact Hcanonical|]. split; [exact Hnoscripting|].
  destruct (canonicalize_turns_noscripting_into_javascriptEnabled params params'
              testEnvironment_setSpec testEnvironment_removeSpec Hcanonical)
    as (Hgone & Hjs & _).
  split; [exact Hgone|]. exact (proj2 (Hjs Hnoscripting)).
Defined.

Lemma noscripting_overrides_config_file_witness :
  let params : Env :=
    <["noscripting" := true]> (<["security.javascriptEnabled" := true]> ∅) in
  let params' := (canonicalizeMongosOptions params).2 in
  let globals :=
    {| scriptingEnabled := true; upgradeBackCompat := false; downgradeBackCompat := false |} in
  setSpec ∧ removeSpec ∧
  canonicalizeMongosOptions params = (OK, params') ∧
  count (canonicalizeServerOptions params).2 "noscripting" ≠ 0%nat ∧
  storeServerOptions params' = OK ∧
  scriptingEnabled (storeMongosOptions params' globals).2 = false.
Proof.
  intros params params' globals.
  assert (canonicalizeMongosOptions params = (OK, params')) as Hcanonical
    by (vm_compute; reflexivity).
  assert (count (canonicalizeServerOptions params).2 "noscripting" ≠ 0%nat) as Hnoscripting
    by (vm_compute; discriminate).
  assert (storeServerOptions params' = OK) as Hstore by reflexivity.
  split; [exact testEnvironment_setSpec|]. split; [exact testEnvironment_removeSpec|].
  split; [exact Hcanonical|]. split; [exact Hnoscripting|]. split; [exact Hstore|].
  exact (noscripting_overrides_config_file params params' globals
           testEnvironment_setSpec testEnvironment_removeSpec
           Hcanonical Hnoscripting Hstore).
Defined.

End MongosOptionsWitnesses.

Section ShardInvalidatedWitnesses.

Import ShardInvalidatedForTargetingInfo.

#[local] Existing Instance testNamespaceStringUtil.

Lemma shard_invalidated_round_trip_witness :
  let info : t := Info "test.coll" in
  let bob : Document := [("code", VInt 283)] in
  nssDeserialize (nssSerialize (_nss info)) = _nss info ∧
  getField bob kNss = None ∧
  parseFromCommandError (serialize info bob) = Some info.
Proof.
  intros info bob.
  assert (nssDeserialize (nssSerialize (_nss info)) = _nss info) as Hnss by reflexivity.
  assert (getField bob kNss = None) as Hfresh by reflexivity.
  split; [exact Hnss|]. split; [exact Hfresh|].
  exact (proj1 (shard_invalidated_round_trip info bob Hnss) Hfresh).
Defined.

End ShardInvalidatedWitnesses.
